(** * gas_oracle.ts: the aggregation core of the gas fee oracle

    A shallow embedding of [src/gas_oracle.ts] and the properties its
    specification states about it.

    Values of the TypeScript type [number] are IEEE-754 binary64 numbers.
    Every number the aggregation core handles is integer valued, except
    the jitter factor [1 + 0.12] and the product [baseMed * (1 + jitter)],
    so the embedding represents
    - an integer-valued number by the integer it denotes ([Z]), and every
      arithmetic operation by the exact operation followed by rounding to
      the nearest binary64 number, ties to even ([fl]);
    - a fractional number by a dyadic rational [num / 2 ^ scale].
    Overflow to [Infinity] (magnitudes of [2 ^ 1024] and more) and [NaN]
    are outside the embedding. *)

From Stdlib Require Import String ZArith List Lia Bool Sorted Permutation.
From Stdlib Require Import Ascii.
From Stdlib Require DecimalString.
Import ListNotations.
Local Open Scope Z_scope.

(** ** Binary64 rounding *)

Module Binary64.

(** Number of significand bits of a binary64 number. *)
Definition prec : Z := 53.

(** [Number.MAX_SAFE_INTEGER] *)
Definition MAX_SAFE_INTEGER : Z := 2 ^ 53 - 1.

(** Round a non-negative integer to [prec] significant bits, to nearest,
    ties to the even significand. *)
Definition round_nat (n : Z) : Z :=
  if n <? 2 ^ prec then n
  else
    let s := Z.log2 n - (prec - 1) in
    let q := n / 2 ^ s in
    let r := n mod 2 ^ s in
    let h := 2 ^ (s - 1) in
    if (r <? h) || ((r =? h) && Z.even q) then q * 2 ^ s
    else (q + 1) * 2 ^ s.

(** Rounding of an integer of either sign; binary64 rounding is symmetric
    around zero.  There is no overflow here: the source gives [Infinity]
    where the exact result is [2 ^ 1024 - 2 ^ 970] or more, so [fl] is the
    rounding of the source for magnitudes below that. *)
Definition fl (z : Z) : Z :=
  if z <? 0 then - round_nat (- z) else round_nat z.

(** A dyadic rational [num / 2 ^ scale], for the numbers that are not
    integers. *)
Record dyadic : Type := Dyadic { num : Z; scale : Z }.

(** Rounding a dyadic rational rounds its numerator: scaling by a power of
    two does not change the significand. *)
Definition dround (d : dyadic) : dyadic :=
  Dyadic (fl (num d)) (scale d).

(** [n + d] for an integer [n] *)
Definition dadd_int (n : Z) (d : dyadic) : dyadic :=
  dround (Dyadic (n * 2 ^ scale d + num d) (scale d)).

(** [n * d] for an integer [n] *)
Definition dmul_int (n : Z) (d : dyadic) : dyadic :=
  dround (Dyadic (n * num d) (scale d)).

(** [Math.floor(d)] *)
Definition dfloor (d : dyadic) : Z := num d / 2 ^ scale d.

(** The integer operations of the source. *)
Definition add (a b : Z) : Z := fl (a + b).
Definition sub (a b : Z) : Z := fl (a - b).
Definition mul (a b : Z) : Z := fl (a * b).

(** [Math.floor(x / 2)]: halving a binary number is exact. *)
Definition half_floor (x : Z) : Z := x / 2.

(** The integers of the specification: the non-negative integers that a
    [number] holds exactly ([Number.isSafeInteger]). *)
Definition safe_nat (z : Z) : Prop := 0 <= z <= MAX_SAFE_INTEGER.

(** The non-negative integers with at most 53 significant bits; below
    [2 ^ 1024] these are the non-negative integers a [number] can hold.
    The exponent is not bounded here, see [fl]. *)
Definition representable (v : Z) : Prop :=
  exists k t, 0 <= k <= 2 ^ 53 /\ 0 <= t /\ v = k * 2 ^ t.

(** What [round_nat] returns: [n] itself when it has at most 53 bits, and
    otherwise one of the two neighbours of [n = q * 2 ^ s + r] on the grid
    of multiples of [2 ^ s], the nearest one, and the one with the even
    significand at a tie. *)
Inductive rounded (n : Z) : Z -> Prop :=
  | rounded_exact : n <= 2 ^ 53 -> rounded n n
  | rounded_down (s q r : Z) :
      1 <= s -> n = q * 2 ^ s + r -> 2 ^ 52 <= q < 2 ^ 53 ->
      0 <= r -> 2 * r <= 2 ^ s -> (2 * r = 2 ^ s -> Z.even q = true) ->
      s = Z.log2 n - 52 ->
      rounded n (q * 2 ^ s)
  | rounded_up (s q r : Z) :
      1 <= s -> n = q * 2 ^ s + r -> 2 ^ 52 <= q < 2 ^ 53 ->
      r < 2 ^ s -> 2 ^ s <= 2 * r -> (2 * r = 2 ^ s -> Z.even q = false) ->
      s = Z.log2 n - 52 ->
      rounded n ((q + 1) * 2 ^ s).

End Binary64.

Import Binary64.

(** ** The program *)

(** [type Sample = { name: string; base: number; prio: number; block: number }] *)
Record Sample : Type := mkSample {
  name : string;
  base : Z;
  prio : Z;
  block : Z
}.

(** *** Sorting

    [Array.prototype.sort(cmp)] is a stable sort that places [a] before [b]
    when [cmp(a, b)] is negative and keeps the order of the two when it is
    zero. *)
Fixpoint insert (cmp : Z -> Z -> Z) (x : Z) (l : list Z) : list Z :=
  match l with
  | [] => [x]
  | y :: l' => if cmp x y <=? 0 then x :: l else y :: insert cmp x l'
  end.

Definition sort (cmp : Z -> Z -> Z) (l : list Z) : list Z :=
  fold_right (insert cmp) [] l.

(** The comparator [(a,b)=>a-b] *)
Definition by_difference (a b : Z) : Z := sub a b.

(** *** [median] (lines 29-33)

    [xs[m]] is read with [nth]; the default is never returned because the
    indices used are below [xs.length]. *)
Definition median (nums : list Z) : Z :=
  let xs := sort by_difference nums in
  let m := (length xs / 2)%nat in
  if negb (length xs =? 0)%nat then
    if negb (length xs mod 2 =? 0)%nat then nth m xs 0
    else half_floor (add (nth (m - 1) xs 0) (nth m xs 0))
  else 0.

(** *** [rmOutliers] (lines 35-40)

    [median(...) || 1] replaces a zero median by 1. *)
Definition rmOutliers (xs : list Z) : list Z :=
  if (length xs <? 4)%nat then xs
  else
    let med := median xs in
    let mad0 := median (map (fun x => Z.abs (sub x med)) xs) in
    let mad := if mad0 =? 0 then 1 else mad0 in
    filter (fun x => Z.abs (sub x med) <=? mul 3 mad) xs.

(** *** The recommendation (lines 59-61) *)

(** The literal [0.12]: the binary64 number nearest to 12/100. *)
Definition jitter : dyadic := Dyadic 1080863910568919 53.

Definition tip (prioMed : Z) : Z := Z.max prioMed 1000000.

Definition rec (baseMed prioMed : Z) : Z :=
  add (dfloor (dmul_int baseMed (dadd_int 1 jitter))) (tip prioMed).

(** *** The collector (lines 14-27)

    The reply to [eth_feeHistory], for replies whose fields are missing or
    hold hexadecimal quantities.  A hexadecimal quantity string is
    represented by the integer it denotes, so that [Number(s)] is the
    rounding [fl] of that integer; a missing field is [None].  Strings that
    are not numbers, for which [Number(s)] is [NaN], are outside the
    embedding. *)
Record FeeHistory : Type := mkFeeHistory {
  baseFeePerGas : option (list Z);
  reward : option (list (list Z));
  oldestBlock : option Z
}.

(** What [p.send] does: it throws (the provider cannot be reached or
    answers with an error), or it returns the result of the call, which
    may be [null].  [ReturnsUnmappable] is a result whose [reward?.[0]] is
    truthy and is not an array (a non-empty string, a number, an object),
    whatever its other fields are. *)
Inductive Response : Type :=
  | Throws
  | Returns (fee : option FeeHistory)
  | ReturnsUnmappable.

(** [a?.[0]]: the first element, [undefined] when [a] is missing or empty. *)
Definition first {A : Type} (a : option (list A)) : option A :=
  match a with
  | Some (x :: _) => Some x
  | _ => None
  end.

(** [v || d] for a value that is [undefined] or truthy. *)
Definition or_else {A : Type} (v : option A) (d : A) : A :=
  match v with
  | Some x => x
  | None => d
  end.

Definition sample (name : string) (resp : Response) : option Sample :=
  match resp with
  | Throws => None
  | Returns None => None (* reading a property of [null] throws *)
  | ReturnsUnmappable => None (* [.map] is not a function: line 20 throws *)
  | Returns (Some fee) =>
      let baseHex := or_else (first (baseFeePerGas fee)) 0 in
      let base := fl baseHex in
      let prios := map fl (or_else (first (reward fee)) []) in
      let prio := nth (length prios / 2) (sort by_difference prios) 0 in
      let blk := fl (or_else (oldestBlock fee) 0) in
      Some (mkSample name base prio blk)
  end.

(** *** The run (lines 42-71) *)

(** The environment variables read by [RPCS]. *)
Record Env : Type := mkEnv {
  RPC_ANKR : option string;
  RPC_ALCH : option string;
  RPC_PUB : option string
}.

(** [process.env.X || d]: the empty string is falsy. *)
Definition env_or (v : option string) (d : string) : string :=
  match v with
  | Some s => if String.eqb s EmptyString then d else s
  | None => d
  end.

Definition RPCS (env : Env) : list (string * string) :=
  [ ("ankr", env_or (RPC_ANKR env) EmptyString);
    ("alchemy", env_or (RPC_ALCH env) EmptyString);
    ("public", env_or (RPC_PUB env) "https://cloudflare-eth.com") ]%string.

(** The object printed on standard output, without its [pretty] part (the
    three fees again, divided by 1e9 and printed with two decimals). *)
Record Recommendation : Type := mkRecommendation {
  providers : list string;
  baseMedianWei : Z;
  prioMedianWei : Z;
  recommendedWei : Z
}.

(** How a run ends: [process.exit(code)] after a line on standard error, or
    a recommendation on standard output. *)
Inductive Outcome : Type :=
  | Exit (code : Z) (error : string)
  | Logged (r : Recommendation).

(** The loop of lines 44-48; [net url] is the reply of the provider at
    [url]. *)
Fixpoint collect (net : string -> Response) (entries : list (string * string))
  : list Sample :=
  match entries with
  | [] => []
  | (name, url) :: rest =>
      if String.eqb url EmptyString then collect net rest
      else match sample name (net url) with
           | Some s => s :: collect net rest
           | None => collect net rest
           end
  end.

(** Lines 49-70, from the collected samples on. *)
Definition aggregate (samples : list Sample) : Outcome :=
  if (length samples =? 0)%nat then Exit 1 "no samples"
  else
    let bases := rmOutliers (map base samples) in
    let prios := rmOutliers (map prio samples) in
    let baseMed := median bases in
    let prioMed := median prios in
    Logged (mkRecommendation (map name samples) baseMed prioMed
                             (rec baseMed prioMed)).

Definition main (env : Env) (net : string -> Response) : Outcome :=
  aggregate (collect net (RPCS env)).

(** ** The specification's own words *)

(** The median of an ascending list as the specification describes it:
    0 for the empty list, the middle element for an odd length, the floor
    of the average of the two middle elements for an even length. *)
Definition median_of_sorted (s : list Z) : Z :=
  let n := length s in
  if (n =? 0)%nat then 0
  else if (n mod 2 =? 1)%nat then nth (n / 2) s 0
  else (nth (n / 2 - 1) s 0 + nth (n / 2) s 0) / 2.

(** The filter of the specification, in exact integer arithmetic. *)
Definition keep_within (med mad : Z) (xs : list Z) : list Z :=
  filter (fun x => Z.abs (x - med) <=? 3 * mad) xs.

(** [l1] is a subsequence of [l2]: [l2] with some elements removed. *)
Inductive subseq : list Z -> list Z -> Prop :=
  | subseq_nil : subseq [] []
  | subseq_skip (x : Z) (l1 l2 : list Z) : subseq l1 l2 -> subseq l1 (x :: l2)
  | subseq_keep (x : Z) (l1 l2 : list Z) :
      subseq l1 l2 -> subseq (x :: l1) (x :: l2).

(** The recommendation of the specification, in exact arithmetic:
    [floor(baseFeeMedian * 1.12) + max(priorityFeeMedian, minimumTip)]. *)
Definition minimumTip : Z := 1000000.

Definition recommended_exact (baseFeeMedian priorityFeeMedian : Z) : Z :=
  112 * baseFeeMedian / 100 + Z.max priorityFeeMedian minimumTip.

(** ** The [pretty] part of the report (lines 63-69) *)

(** [n / d] for integers [n >= 0] and [d > 0]: the binary64 number nearest
    to the quotient, ties to even.  [l] is the exponent of the quotient
    ([2 ^ l <= n / d < 2 ^ (l + 1)]) and the significand is the quotient of
    [n * 2 ^ (52 - l)] by [d], rounded to an integer.  The scale of the
    result may be negative: [Dyadic m e] is then [m * 2 ^ (- e)]. *)
Definition ddiv_int (n d : Z) : dyadic :=
  let l0 := Z.log2 n - Z.log2 d in
  let below := if 0 <=? l0 then n <? d * 2 ^ l0 else n * 2 ^ (- l0) <? d in
  let l := if below then l0 - 1 else l0 in
  let e := 52 - l in
  let N := if 0 <=? e then n * 2 ^ e else n in
  let D := if 0 <=? e then d else d * 2 ^ (- e) in
  let q := N / D in
  let r := N mod D in
  Dyadic (if (2 * r <? D) || ((2 * r =? D) && Z.even q) then q else q + 1) e.

(** The integer that [x.toFixed(2)] prints without its decimal point: the
    integer [k] for which [k / 100 - x] is nearest to zero, the larger one
    when there are two. *)
Definition toFixed2_int (x : dyadic) : Z :=
  if 0 <=? scale x then (200 * num x + 2 ^ scale x) / 2 ^ (scale x + 1)
  else 100 * num x * 2 ^ (- scale x).

(** The decimal digits of a non-negative integer. *)
Definition digits (k : Z) : string :=
  DecimalString.NilZero.string_of_uint (N.to_uint (Z.to_N k)).

Fixpoint zeros (n : nat) : string :=
  match n with
  | O => EmptyString
  | S n' => String "0"%char (zeros n')
  end.

(** The string built from the digits of [k]: zeros in front up to three
    digits, and a point before the last two. *)
Definition show_fixed2 (k : Z) : string :=
  let m := digits k in
  let m := if (String.length m <=? 2)%nat
           then String.append (zeros (3 - String.length m)) m else m in
  let a := substring 0 (String.length m - 2) m in
  let b := substring (String.length m - 2) 2 m in
  String.append a (String.append "." b).

(** [x.toFixed(2)] for [0 <= x < 1e21] *)
Definition toFixed2 (x : dyadic) : string := show_fixed2 (toFixed2_int x).

(** [const gwei = (n:number)=> (n/1e9).toFixed(2)] *)
Definition gwei (n : Z) : string := toFixed2 (ddiv_int n 1000000000).

(** The [pretty] object of the report. *)
Record Pretty : Type := mkPretty {
  baseGwei : string;
  prioGwei : string;
  recommendedGwei : string
}.

Definition pretty (r : Recommendation) : Pretty :=
  mkPretty (gwei (baseMedianWei r)) (gwei (prioMedianWei r))
           (gwei (recommendedWei r)).

(** ** Words for the properties of the run *)

(** The provider of an entry of [RPCS] is configured and its query gives a
    sample. *)
Definition answered (net : string -> Response) (entry : string * string) : bool :=
  negb (String.eqb (snd entry) EmptyString) &&
  match sample (fst entry) (net (snd entry)) with
  | Some _ => true
  | None => false
  end.

(** Every quantity of a reply is a safe integer. *)
Definition safe_reply (fee : FeeHistory) : Prop :=
  (forall l x, baseFeePerGas fee = Some l -> In x l -> safe_nat x) /\
  (forall rows row x, reward fee = Some rows -> In row rows -> In x row ->
                      safe_nat x) /\
  (forall b, oldestBlock fee = Some b -> safe_nat b).

(** ** Facts about binary64 rounding *)

Module Binary64Facts.

Lemma round_nat_small (n : Z) : n <= 2 ^ 53 -> round_nat n = n.
Proof.
  intros Hn. unfold round_nat, prec.
  destruct (Z.ltb_spec n (2 ^ 53)) as [|Hge]; [reflexivity|].
  assert (n = 2 ^ 53) as -> by lia. reflexivity.
Qed.

(** The binade of a number that needs rounding. *)
Lemma binade (n : Z) :
  2 ^ 53 <= n ->
  1 <= Z.log2 n - 52 /\
  2 ^ 52 * 2 ^ (Z.log2 n - 52) <= n < 2 ^ 53 * 2 ^ (Z.log2 n - 52).
Proof.
  intros Hn.
  assert (0 < n) as Hpos by lia.
  assert (53 <= Z.log2 n) as Hlog by (apply Z.log2_le_pow2; lia).
  destruct (Z.log2_spec n Hpos) as [Hlo Hhi].
  split; [lia|].
  rewrite <- !Z.pow_add_r by lia.
  replace (52 + (Z.log2 n - 52)) with (Z.log2 n) by lia.
  replace (53 + (Z.log2 n - 52)) with (Z.succ (Z.log2 n)) by lia.
  lia.
Qed.

Lemma round_nat_rounded (n : Z) : rounded n (round_nat n).
Proof.
  destruct (Z.le_gt_cases n (2 ^ 53)) as [Hle|Hgt].
  - rewrite round_nat_small by exact Hle. now constructor.
  - destruct (binade n) as [Hs [Hlo Hhi]]; [lia|].
    unfold round_nat, prec.
    destruct (Z.ltb_spec n (2 ^ 53)) as [|_]; [lia|].
    replace (53 - 1) with 52 by reflexivity.
    set (s := Z.log2 n - 52) in *.
    assert (0 < 2 ^ s) as Hp by (apply Z.pow_pos_nonneg; lia).
    assert (2 ^ s = 2 * 2 ^ (s - 1)) as Hh.
    { rewrite <- Z.pow_succ_r by lia. f_equal. lia. }
    pose proof (Z.div_mod n (2 ^ s) ltac:(lia)) as Hdm.
    pose proof (Z.mod_pos_bound n (2 ^ s) Hp) as Hr.
    set (q := n / 2 ^ s) in *. set (r := n mod 2 ^ s) in *.
    assert (2 ^ 52 <= q < 2 ^ 53) as Hq by nia.
    destruct (Z.ltb_spec r (2 ^ (s - 1))) as [Hlt|Hge]; cbn [orb].
    + apply (rounded_down n s q r); try lia.
    + destruct (Z.eqb_spec r (2 ^ (s - 1))) as [Heq|Hne]; cbn [andb].
      * destruct (Z.even q) eqn:He.
        -- apply (rounded_down n s q r); try lia. intros _. exact He.
        -- apply (rounded_up n s q r); try lia. intros _. exact He.
      * apply (rounded_up n s q r); lia.
Qed.


(** Arithmetic of a grid of step [u] and of the coarser grid of step
    [u * w]. *)
Lemma fine_below (k u w q r : Z) :
  0 < u -> k * (u * w) <= q * u + r -> r < u -> k * w <= q.
Proof.
  intros Hu Hle Hr.
  assert (k * w * u < (q + 1) * u) by lia.
  assert (k * w < q + 1) by (apply (Z.mul_lt_mono_pos_r u); lia). lia.
Qed.

Lemma fine_above (k u w q r : Z) :
  0 < u -> q * u + r <= k * (u * w) -> 0 < r -> q + 1 <= k * w.
Proof.
  intros Hu Hle Hr.
  assert (q * u < k * w * u) by lia.
  assert (q < k * w) by (apply (Z.mul_lt_mono_pos_r u); lia). lia.
Qed.

Lemma coarse_below (k u w q P : Z) :
  0 <= k <= 2 * P -> P <= q -> 0 < u -> 2 <= w -> 0 < P ->
  k * u <= q * (u * w).
Proof.
  intros Hk Hq Hu Hw HP.
  assert (k * u <= 2 * P * u) by nia.
  assert (2 * (P * u) <= w * (P * u)) by (apply Z.mul_le_mono_nonneg_r; nia).
  assert (P * (u * w) <= q * (u * w)) by (apply Z.mul_le_mono_nonneg_r; nia).
  lia.
Qed.

Lemma pow2_pos (s : Z) : 0 <= s -> 0 < 2 ^ s.
Proof. intros. apply Z.pow_pos_nonneg; lia. Qed.

Lemma pow2_split (s t : Z) :
  0 <= s <= t -> 2 ^ t = 2 ^ s * 2 ^ (t - s) /\ 1 <= 2 ^ (t - s).
Proof.
  intros H. split.
  - rewrite <- Z.pow_add_r by lia. f_equal. lia.
  - pose proof (pow2_pos (t - s)). lia.
Qed.

Lemma pow2_split_lt (s t : Z) :
  0 <= s < t -> 2 ^ t = 2 ^ s * 2 ^ (t - s) /\ 2 <= 2 ^ (t - s).
Proof.
  intros H. split; [apply pow2_split; lia|].
  change 2 with (2 ^ 1) at 1. apply Z.pow_le_mono_r; lia.
Qed.

Lemma round_nat_nonneg (n : Z) : 0 <= n -> 0 <= round_nat n.
Proof.
  intros Hn.
  destruct (round_nat_rounded n) as [|s q r Hs|s q r Hs]; try lia;
    pose proof (pow2_pos s); nia.
Qed.

(** A number with at most 53 significant bits below [n] is below the
    rounding of [n]. *)
Lemma round_nat_above_grid (n k t : Z) :
  0 <= k <= 2 ^ 53 -> 0 <= t -> k * 2 ^ t <= n -> k * 2 ^ t <= round_nat n.
Proof.
  intros Hk Ht Hle.
  pose proof (pow2_pos t Ht) as Hpt.
  assert (forall s q r, 1 <= s -> n = q * 2 ^ s + r -> 2 ^ 52 <= q ->
                        r < 2 ^ s -> k * 2 ^ t <= q * 2 ^ s) as Hgrid.
  { intros s q r Hs Hn Hq Hr.
    pose proof (pow2_pos s ltac:(lia)) as Hps.
    destruct (Z.le_gt_cases s t) as [Hst|Hst].
    - destruct (pow2_split s t ltac:(lia)) as [Hp2 Hge]. rewrite Hp2 in *.
      pose proof (fine_below k (2 ^ s) (2 ^ (t - s)) q r Hps).
      rewrite Z.mul_assoc, (Z.mul_comm k), <- Z.mul_assoc, (Z.mul_comm _ (2 ^ s)).
      apply Z.mul_le_mono_nonneg_l; lia.
    - destruct (pow2_split_lt t s ltac:(lia)) as [Hp2 Hge]. rewrite Hp2.
      apply (coarse_below k (2 ^ t) (2 ^ (s - t)) q (2 ^ 52)); lia. }
  destruct (round_nat_rounded n)
    as [|s q r Hs Hn Hq Hr0 Hr1 _ _|s q r Hs Hn Hq Hr0 Hr1 _ _]; [lia| |].
  all: pose proof (pow2_pos s ltac:(lia)) as Hps.
  all: pose proof (Hgrid s q r Hs Hn ltac:(lia) ltac:(lia)); nia.
Qed.

(** A number with at most 53 significant bits above [n] is above the
    rounding of [n]. *)
Lemma round_nat_below_grid (n k t : Z) :
  0 <= k <= 2 ^ 53 -> 0 <= t -> n <= k * 2 ^ t -> round_nat n <= k * 2 ^ t.
Proof.
  intros Hk Ht Hle.
  pose proof (pow2_pos t Ht) as Hpt.
  destruct (round_nat_rounded n)
    as [|s q r Hs Hn Hq Hr0 Hr1 _ _|s q r Hs Hn Hq Hr0 Hr1 _ _]; [lia| |].
  all: pose proof (pow2_pos s ltac:(lia)) as Hps.
  - nia.
  - destruct (Z.le_gt_cases s t) as [Hst|Hst].
    + destruct (pow2_split s t ltac:(lia)) as [Hp2 Hge]. rewrite Hp2 in *.
      pose proof (fine_above k (2 ^ s) (2 ^ (t - s)) q r Hps).
      rewrite Z.mul_assoc, (Z.mul_comm k), <- Z.mul_assoc, (Z.mul_comm _ (2 ^ s)).
      apply Z.mul_le_mono_nonneg_l; lia.
    + destruct (pow2_split_lt t s ltac:(lia)) as [Hp2 Hge]. rewrite Hp2 in *.
      pose proof (coarse_below k (2 ^ t) (2 ^ (s - t)) q (2 ^ 52)). lia.
Qed.

Lemma round_nat_mono (a b : Z) : a <= b -> round_nat a <= round_nat b.
Proof.
  intros Hab.
  destruct (Z.le_gt_cases a (2 ^ 53)) as [Ha|Ha].
  { rewrite (round_nat_small a Ha).
    destruct (Z.le_gt_cases 0 a).
    - replace a with (a * 2 ^ 0) by (rewrite Z.pow_0_r; lia).
      apply round_nat_above_grid; rewrite ?Z.pow_0_r; lia.
    - destruct (Z.le_gt_cases b (2 ^ 53)) as [Hb|Hb].
      + rewrite round_nat_small; lia.
      + pose proof (round_nat_nonneg b ltac:(lia)). lia. }
  destruct (round_nat_rounded a)
    as [|s q r Hs Hn Hq Hr0 Hr1 He Hl|s q r Hs Hn Hq Hr0 Hr1 He Hl]; [lia| |].
  - (* rounded down: the result is on the grid, below [a] *)
    pose proof (pow2_pos s ltac:(lia)).
    apply round_nat_above_grid; nia.
  - (* rounded up *)
    pose proof (pow2_pos s ltac:(lia)) as Hps.
    assert (s <= Z.log2 b - 52) as Hss
        by (pose proof (Z.log2_le_mono a b Hab); lia).
    destruct (round_nat_rounded b)
      as [|s' q' r' Hs' Hn' Hq' Hr0' Hr1' He' Hl'
          |s' q' r' Hs' Hn' Hq' Hr0' Hr1' He' Hl']; [lia| |].
    all: pose proof (pow2_pos s' ltac:(lia)) as Hps'.
    all: try rewrite <- Hl' in Hss.
    all: destruct (Z.eq_dec s s') as [Heq|Hne];
      [try subst s'; try rewrite <- Heq in *
      |destruct (pow2_split_lt s s' ltac:(lia)) as [Hp2 Hge]; rewrite Hp2 in *;
       pose proof (coarse_below (q + 1) (2 ^ s) (2 ^ (s' - s)) q' (2 ^ 52));
       nia].
    all: assert (q <= q') as Hqq
        by (pose proof (fine_below q (2 ^ s) 1 q' r' Hps); lia).
    all: destruct (Z.eq_dec q q') as [<-|Hneq];
      [|assert ((q + 1) * 2 ^ s <= q' * 2 ^ s)
          by (apply Z.mul_le_mono_nonneg_r; lia); lia].
    + assert (2 * r = 2 ^ s) as Htie by lia.
      assert (2 * r' = 2 ^ s) as Htie' by lia.
      rewrite (He Htie) in He'. discriminate (He' Htie').
    + lia.
Qed.

End Binary64Facts.

Import Binary64Facts.

(** ** Facts about rounding integers of either sign *)

Section SignedRounding.

Lemma fl_nonneg (z : Z) : 0 <= z -> fl z = round_nat z.
Proof. intros H. unfold fl. destruct (Z.ltb_spec z 0); [lia|reflexivity]. Qed.

Lemma fl_small (z : Z) : - 2 ^ 53 <= z <= 2 ^ 53 -> fl z = z.
Proof.
  intros H. unfold fl. destruct (Z.ltb_spec z 0).
  - rewrite round_nat_small; lia.
  - apply round_nat_small; lia.
Qed.

Lemma round_nat_pos (n : Z) : 0 < n -> 0 < round_nat n.
Proof.
  intros H.
  pose proof (round_nat_above_grid n 1 0). rewrite Z.pow_0_r in *. lia.
Qed.

Lemma abs_fl (z : Z) : Z.abs (fl z) = round_nat (Z.abs z).
Proof.
  unfold fl. destruct (Z.ltb_spec z 0).
  - pose proof (round_nat_pos (- z)). rewrite Z.abs_neq, Z.opp_involutive by lia.
    f_equal. lia.
  - pose proof (round_nat_nonneg z).
    rewrite !Z.abs_eq by lia. reflexivity.
Qed.

(** The sign of a rounded difference is the sign of the difference. *)
Lemma by_difference_le (a b : Z) : (by_difference a b <=? 0) = (a <=? b).
Proof.
  unfold by_difference, sub, fl.
  destruct (Z.ltb_spec (a - b) 0).
  - pose proof (round_nat_pos (- (a - b))).
    destruct (Z.leb_spec a b), (Z.leb_spec (- round_nat (- (a - b))) 0); lia.
  - destruct (Z.eq_dec a b) as [->|].
    + rewrite Z.sub_diag. destruct (Z.leb_spec b b); [reflexivity|lia].
    + pose proof (round_nat_pos (a - b)).
      destruct (Z.leb_spec a b), (Z.leb_spec (round_nat (a - b)) 0); lia.
Qed.

End SignedRounding.

(** ** Facts about sorting *)

Section Sorting.

Variable cmp : Z -> Z -> Z.

Lemma insert_perm (x : Z) (l : list Z) : Permutation (insert cmp x l) (x :: l).
Proof.
  induction l as [|y l IH]; cbn; [reflexivity|].
  destruct (cmp x y <=? 0); [reflexivity|].
  rewrite IH. apply perm_swap.
Qed.

Lemma sort_perm (l : list Z) : Permutation (sort cmp l) l.
Proof.
  induction l as [|x l IH]; cbn; [constructor|].
  rewrite insert_perm. now constructor.
Qed.

Lemma sort_length (l : list Z) : length (sort cmp l) = length l.
Proof. apply Permutation_length, sort_perm. Qed.

Lemma sort_Forall (P : Z -> Prop) (l : list Z) :
  Forall P l -> Forall P (sort cmp l).
Proof. apply Permutation_Forall. symmetry. apply sort_perm. Qed.

Lemma sort_In (x : Z) (l : list Z) : In x (sort cmp l) -> In x l.
Proof. apply Permutation_in, sort_perm. Qed.

End Sorting.

Lemma insert_sorted (x : Z) (l : list Z) :
  Sorted Z.le l -> Sorted Z.le (insert by_difference x l).
Proof.
  induction 1 as [|y l Hl IH Hhd]; cbn.
  - repeat constructor.
  - rewrite by_difference_le. destruct (Z.leb_spec x y).
    + repeat constructor; assumption.
    + constructor; [exact IH|].
      destruct Hhd as [|z l' Hyz]; cbn.
      * constructor. lia.
      * rewrite by_difference_le. destruct (Z.leb_spec x z); constructor; lia.
Qed.

Lemma sort_sorted (l : list Z) : Sorted Z.le (sort by_difference l).
Proof.
  induction l as [|x l IH]; cbn; [constructor|]. now apply insert_sorted.
Qed.

(** An ascending list is determined by its elements. *)
Lemma sorted_perm_unique (l1 l2 : list Z) :
  Sorted Z.le l1 -> Sorted Z.le l2 -> Permutation l1 l2 -> l1 = l2.
Proof.
  intros H1 H2.
  apply Sorted_StronglySorted in H1; [|exact Z.le_trans].
  apply Sorted_StronglySorted in H2; [|exact Z.le_trans].
  revert l2 H2. induction H1 as [|x l1 Hs1 IH Hx]; intros l2 H2 Hp.
  - apply Permutation_nil in Hp. now subst.
  - destruct H2 as [|y l2 Hs2 Hy].
    + apply Permutation_sym, Permutation_nil in Hp. discriminate.
    + assert (x = y) as <-.
      { assert (In x (y :: l2)) as Hin1 by (eapply Permutation_in; [exact Hp|now left]).
        assert (In y (x :: l1)) as Hin2
            by (eapply Permutation_in; [symmetry; exact Hp|now left]).
        rewrite Forall_forall in Hx, Hy.
        destruct Hin1 as [->|Hin1]; [reflexivity|].
        destruct Hin2 as [->|Hin2]; [reflexivity|].
        specialize (Hx _ Hin2). specialize (Hy _ Hin1). lia. }
      f_equal. apply IH; [assumption|]. eapply Permutation_cons_inv; exact Hp.
Qed.

(** Any ascending arrangement of [l] is the one [sort] computes. *)
Lemma sort_unique (l s : list Z) :
  Sorted Z.le s -> Permutation s l -> sort by_difference l = s.
Proof.
  intros Hs Hp. apply sorted_perm_unique; [apply sort_sorted|exact Hs|].
  rewrite sort_perm. now symmetry.
Qed.

(** ** Facts about [median] *)

Lemma Forall_nth_default (P : Z -> Prop) (l : list Z) (d : Z) (i : nat) :
  Forall P l -> P d -> P (nth i l d).
Proof.
  intros Hl Hd. revert i. induction Hl; intros [|i]; cbn; auto.
Qed.

Lemma add_exact (a b : Z) : 0 <= a -> 0 <= b -> a + b <= 2 ^ 53 -> add a b = a + b.
Proof. intros. unfold add. apply fl_small. lia. Qed.

Lemma sub_exact (a b : Z) : safe_nat a -> safe_nat b -> sub a b = a - b.
Proof.
  unfold safe_nat, MAX_SAFE_INTEGER. intros. unfold sub. apply fl_small. lia.
Qed.

(** The sum of two safe integers rounds to at most twice the largest safe
    integer. *)
Lemma add_safe (a b : Z) :
  safe_nat a -> safe_nat b -> 0 <= add a b <= 2 * MAX_SAFE_INTEGER.
Proof.
  unfold safe_nat, MAX_SAFE_INTEGER, add. intros Ha Hb.
  rewrite fl_nonneg by lia. split.
  - apply round_nat_nonneg. lia.
  - replace (2 * (2 ^ 53 - 1)) with ((2 ^ 53 - 1) * 2 ^ 1) by reflexivity.
    apply round_nat_below_grid; lia.
Qed.

Lemma median_safe (xs : list Z) : Forall safe_nat xs -> safe_nat (median xs).
Proof.
  intros Hxs. unfold median.
  assert (safe_nat 0) as H0 by (unfold safe_nat, MAX_SAFE_INTEGER; lia).
  pose proof (sort_Forall by_difference safe_nat xs Hxs) as Hs.
  set (s := sort by_difference xs) in *.
  destruct (length s =? 0)%nat; cbn [negb]; [exact H0|].
  destruct (length s mod 2 =? 0)%nat; cbn [negb].
  - pose proof (add_safe (nth (length s / 2 - 1) s 0) (nth (length s / 2) s 0)
                  (Forall_nth_default _ _ _ _ Hs H0) (Forall_nth_default _ _ _ _ Hs H0)) as Hadd.
    unfold half_floor, safe_nat in *. split.
    + apply Z.div_pos; lia.
    + apply Z.div_le_upper_bound; lia.
  - now apply Forall_nth_default.
Qed.

(** ** Facts about [rmOutliers] *)

Lemma rmOutliers_large (xs : list Z) :
  (4 <= length xs)%nat ->
  rmOutliers xs =
    let med := median xs in
    let mad0 := median (map (fun x => Z.abs (sub x med)) xs) in
    let mad := if mad0 =? 0 then 1 else mad0 in
    filter (fun x => Z.abs (sub x med) <=? mul 3 mad) xs.
Proof.
  intros H. unfold rmOutliers. destruct (Nat.ltb_spec (length xs) 4); [lia|reflexivity].
Qed.

Lemma deviation_safe (x med : Z) :
  safe_nat x -> safe_nat med -> safe_nat (Z.abs (x - med)).
Proof. unfold safe_nat, MAX_SAFE_INTEGER. lia. Qed.

(** Comparing a safe integer with a rounded product is comparing it with
    the exact product. *)
Lemma leb_mul_exact (d m : Z) :
  safe_nat d -> 0 <= m -> (d <=? mul 3 m) = (d <=? 3 * m).
Proof.
  unfold safe_nat, MAX_SAFE_INTEGER, mul. intros Hd Hm.
  rewrite fl_nonneg by lia.
  destruct (Z.le_gt_cases (3 * m) (2 ^ 53)) as [Hle|Hgt].
  - rewrite round_nat_small by exact Hle. reflexivity.
  - pose proof (round_nat_above_grid (3 * m) (2 ^ 53) 0) as Hr.
    rewrite Z.pow_0_r in Hr.
    destruct (Z.leb_spec d (round_nat (3 * m))), (Z.leb_spec d (3 * m)); lia.
Qed.

(** On safe integers the filter is the filter of the specification. *)
Lemma rmOutliers_safe (xs : list Z) :
  Forall safe_nat xs -> (4 <= length xs)%nat ->
  let med := median xs in
  let mad0 := median (map (fun x => Z.abs (x - med)) xs) in
  rmOutliers xs = keep_within med (if mad0 =? 0 then 1 else mad0) xs.
Proof.
  intros Hxs Hlen med mad0. rewrite rmOutliers_large by exact Hlen. cbv zeta.
  fold med.
  assert (safe_nat med) as Hmed by (apply median_safe, Hxs).
  rewrite Forall_forall in Hxs.
  assert (map (fun x => Z.abs (sub x med)) xs = map (fun x => Z.abs (x - med)) xs)
    as ->.
  { apply map_ext_in. intros x Hx. rewrite sub_exact; auto. }
  fold mad0.
  assert (safe_nat mad0) as Hmad.
  { apply median_safe. rewrite Forall_forall. intros d Hd.
    apply in_map_iff in Hd as (x & <- & Hx). apply deviation_safe; auto. }
  unfold keep_within. apply filter_ext_in. intros x Hx.
  rewrite sub_exact by auto.
  apply leb_mul_exact; [apply deviation_safe; auto|].
  unfold safe_nat in Hmad. destruct (Z.eqb_spec mad0 0); lia.
Qed.

(** ** The median (specification 4.1) *)

(** C1, as amended: for every finite sequence of integers between 0 and
    2^52, [median] returns 0 on the empty sequence, the element at index
    n/2 of the ascending sort for an odd length n, and the floor of the
    average of the elements at indices n/2 - 1 and n/2 of the ascending sort
    for an even length n; median([1,3]) = 2, median([1,2,3]) = 2 and
    median([]) = 0. *)
Theorem median_correct :
  (forall xs s : list Z,
      Forall (fun x => 0 <= x <= 2 ^ 52) xs ->
      Sorted Z.le s -> Permutation s xs ->
      median xs = median_of_sorted s) /\
  median [1; 3] = 2 /\ median [1; 2; 3] = 2 /\ median [] = 0.
Proof.
  split; [|repeat split; vm_compute; reflexivity].
  intros xs s Hb Hs Hp. unfold median.
  rewrite (sort_unique xs s Hs Hp). unfold median_of_sorted.
  assert (Forall (fun x => 0 <= x <= 2 ^ 52) s) as Hbs
      by (eapply Permutation_Forall; [symmetry; exact Hp|exact Hb]).
  destruct (length s =? 0)%nat; cbn [negb]; [reflexivity|].
  pose proof (Nat.mod_upper_bound (length s) 2 ltac:(lia)) as Hmod.
  destruct (Nat.eqb_spec (length s mod 2) 0), (Nat.eqb_spec (length s mod 2) 1);
    cbn [negb]; try lia; try reflexivity.
  unfold half_floor.
  assert (0 <= 0 <= 2 ^ 52) as H0 by lia.
  pose proof (Forall_nth_default _ s 0 (length s / 2 - 1) Hbs H0) as Ha.
  pose proof (Forall_nth_default _ s 0 (length s / 2) Hbs H0) as Hc.
  cbv beta in Ha, Hc. rewrite add_exact by lia. reflexivity.
Qed.

Lemma median_correct_witness : median [3; 1] = median_of_sorted [1; 3].
Proof.
  apply (proj1 median_correct [3; 1] [1; 3]).
  - repeat constructor; lia.
  - repeat constructor. lia.
  - apply perm_swap.
Defined.

(** C1 as stated fails: the sum of the two middle elements is rounded to a
    binary64 number before it is halved, and 2^53 + 3 rounds up to
    2^53 + 4. *)
Lemma median_average_rounded :
  let xs := [4503599627370497; 4503599627370498] in
  Forall (fun x => 0 <= x) xs /\ Sorted Z.le xs /\
  median xs = 4503599627370498 /\
  median_of_sorted xs = 4503599627370497.
Proof.
  cbv zeta. split; [repeat constructor; lia|].
  split; [repeat constructor; lia|].
  split; vm_compute; reflexivity.
Qed.

(** ** The outlier filter (specification 4.2) *)

(** Up to 2^52 the median is computed exactly. *)
Lemma median_exact (xs s : list Z) :
  Forall (fun x => 0 <= x <= 2 ^ 52) xs ->
  Sorted Z.le s -> Permutation s xs ->
  median xs = median_of_sorted s.
Proof.
  intros Hb Hs Hp. unfold median.
  rewrite (sort_unique xs s Hs Hp). unfold median_of_sorted.
  assert (Forall (fun x => 0 <= x <= 2 ^ 52) s) as Hbs
      by (eapply Permutation_Forall; [symmetry; exact Hp|exact Hb]).
  destruct (length s =? 0)%nat; cbn [negb]; [reflexivity|].
  pose proof (Nat.mod_upper_bound (length s) 2 ltac:(lia)) as Hmod.
  destruct (Nat.eqb_spec (length s mod 2) 0), (Nat.eqb_spec (length s mod 2) 1);
    cbn [negb]; try lia; try reflexivity.
  unfold half_floor.
  assert (0 <= 0 <= 2 ^ 52) as H0 by lia.
  pose proof (Forall_nth_default _ s 0 (length s / 2 - 1) Hbs H0) as Ha.
  pose proof (Forall_nth_default _ s 0 (length s / 2) Hbs H0) as Hc.
  cbv beta in Ha, Hc. rewrite add_exact by lia. reflexivity.
Qed.

Lemma median_of_sorted_small (s : list Z) :
  Forall (fun x => 0 <= x <= 2 ^ 52) s -> 0 <= median_of_sorted s <= 2 ^ 52.
Proof.
  intros Hs. unfold median_of_sorted.
  assert (0 <= 0 <= 2 ^ 52) as H0 by lia.
  pose proof (Forall_nth_default _ s 0 (length s / 2 - 1) Hs H0) as Ha.
  pose proof (Forall_nth_default _ s 0 (length s / 2) Hs H0) as Hb.
  cbv beta in Ha, Hb.
  destruct (length s =? 0)%nat; [lia|].
  destruct (length s mod 2 =? 1)%nat; [exact Hb|].
  split; [apply Z.div_pos; lia|apply Z.div_le_upper_bound; lia].
Qed.

(** Up to 2^52 the filter is the filter of the specification, with the
    exact median and the exact median of the absolute deviations. *)
Lemma rmOutliers_exact (xs s ds : list Z) :
  Forall (fun x => 0 <= x <= 2 ^ 52) xs -> (4 <= length xs)%nat ->
  Sorted Z.le s -> Permutation s xs ->
  Sorted Z.le ds ->
  Permutation ds (map (fun x => Z.abs (x - median_of_sorted s)) xs) ->
  rmOutliers xs =
  keep_within (median_of_sorted s)
              (if median_of_sorted ds =? 0 then 1 else median_of_sorted ds) xs.
Proof.
  intros Hb Hlen Hs Hp Hds Hpd.
  assert (Forall safe_nat xs) as Hsafe.
  { eapply Forall_impl; [|exact Hb]. unfold safe_nat, MAX_SAFE_INTEGER.
    cbv beta. intros x Hx. lia. }
  pose proof (rmOutliers_safe xs Hsafe Hlen) as Heq. cbv zeta in Heq.
  rewrite (median_exact xs s Hb Hs Hp) in Heq.
  assert (0 <= median_of_sorted s <= 2 ^ 52) as Hmed.
  { apply median_of_sorted_small.
    eapply Permutation_Forall; [symmetry; exact Hp|exact Hb]. }
  rewrite (median_exact _ ds) in Heq; [exact Heq| |exact Hds|exact Hpd].
  rewrite Forall_forall in *. intros d Hd.
  apply in_map_iff in Hd as (x & <- & Hx). specialize (Hb x Hx).
  cbv beta in Hb. lia.
Qed.

(** C2, as amended: for every sequence of at least 4 integers between 0
    and 2^52 the filter keeps, in their order, exactly the elements [x] with
    [|x - med| <= 3 * mad], where [med] is the median of the sequence and
    [mad] the median of the absolute deviations, or 1 when that median is
    0; both medians are the exact ones, read off the ascending
    arrangements [s] and [ds].  On [100,102,98,101,99,9999] the filter
    drops 9999 and keeps the other five values in order. *)
Theorem rmOutliers_keeps_within :
  (forall xs s ds : list Z,
      Forall (fun x => 0 <= x <= 2 ^ 52) xs -> (4 <= length xs)%nat ->
      Sorted Z.le s -> Permutation s xs ->
      let med := median_of_sorted s in
      Sorted Z.le ds -> Permutation ds (map (fun x => Z.abs (x - med)) xs) ->
      let mad0 := median_of_sorted ds in
      let mad := if mad0 =? 0 then 1 else mad0 in
      rmOutliers xs = filter (fun x => Z.abs (x - med) <=? 3 * mad) xs) /\
  rmOutliers [100; 102; 98; 101; 99; 9999] = [100; 102; 98; 101; 99].
Proof.
  split; [|vm_compute; reflexivity].
  intros xs s ds Hb Hlen Hs Hp med Hds Hpd mad0 mad.
  exact (rmOutliers_exact xs s ds Hb Hlen Hs Hp Hds Hpd).
Qed.

Lemma rmOutliers_keeps_within_witness :
  rmOutliers [10; 10; 10; 11; 500] =
  filter (fun x => Z.abs (x - 10) <=? 3 * 1) [10; 10; 10; 11; 500].
Proof.
  apply (proj1 rmOutliers_keeps_within [10; 10; 10; 11; 500]
               [10; 10; 10; 11; 500] [0; 0; 0; 1; 490]).
  - repeat constructor; lia.
  - cbn. lia.
  - repeat constructor; lia.
  - apply Permutation_refl.
  - repeat constructor; lia.
  - apply Permutation_refl.
Defined.

(** C2 as stated fails: the median of the code is computed from a rounded
    sum, and with the exact median 9007199254740987 every element of this
    sequence is within 3 * mad = 3, while the filter drops
    9007199254740984. *)
Lemma rmOutliers_rounded_median :
  let xs := [9007199254740984; 9007199254740989; 9007199254740987;
             9007199254740988] in
  let s := [9007199254740984; 9007199254740987; 9007199254740988;
            9007199254740989] in
  let med := median_of_sorted s in
  let ds := [0; 1; 2; 3] in
  let mad := median_of_sorted ds in
  (4 <= length xs)%nat /\ Forall (fun x => 0 <= x) xs /\
  Sorted Z.le s /\ Permutation s xs /\
  Sorted Z.le ds /\ Permutation ds (map (fun x => Z.abs (x - med)) xs) /\
  mad = 1 /\
  filter (fun x => Z.abs (x - med) <=? 3 * mad) xs = xs /\
  rmOutliers xs = [9007199254740989; 9007199254740987; 9007199254740988].
Proof.
  cbv zeta. split; [cbn; lia|]. split; [repeat constructor; lia|].
  split; [repeat constructor; lia|]. split.
  { apply perm_skip. symmetry.
    apply (Permutation_cons_append
             [9007199254740987; 9007199254740988] 9007199254740989). }
  split; [repeat constructor; lia|]. split.
  { vm_compute. apply (perm_trans (l' := [3; 0; 1; 2])).
    - symmetry. apply (Permutation_cons_append [0; 1; 2] 3).
    - apply perm_skip. symmetry. apply (Permutation_cons_append [0; 1] 2). }
  repeat split; vm_compute; reflexivity.
Qed.

(** C3: a sequence of fewer than 4 elements is returned unchanged. *)
Theorem rmOutliers_small (xs : list Z) :
  (length xs < 4)%nat -> rmOutliers xs = xs.
Proof.
  intros H. unfold rmOutliers.
  destruct (Nat.ltb_spec (length xs) 4); [reflexivity|lia].
Qed.

Lemma rmOutliers_small_witness : rmOutliers [1; 2; 300] = [1; 2; 300].
Proof. apply rmOutliers_small. cbn. lia. Defined.

Lemma deviations_exact (xs : list Z) :
  Forall safe_nat xs ->
  map (fun x => Z.abs (sub x (median xs))) xs =
  map (fun x => Z.abs (x - median xs)) xs.
Proof.
  intros Hxs. pose proof (median_safe xs Hxs).
  rewrite Forall_forall in Hxs.
  apply map_ext_in. intros x Hx. rewrite sub_exact; auto.
Qed.

(** C7, as amended: for every sequence of at least 4 integers between 0
    and 2^52 whose median absolute deviation computes to 0, the filter uses
    1 in its place, and exactly the points at most 3 units away from the
    median survive; the median is the exact one, read off the ascending
    arrangement [s]. *)
Theorem rmOutliers_zero_mad (xs s : list Z) :
  Forall (fun x => 0 <= x <= 2 ^ 52) xs -> (4 <= length xs)%nat ->
  Sorted Z.le s -> Permutation s xs ->
  median (map (fun x => Z.abs (sub x (median xs))) xs) = 0 ->
  let med := median_of_sorted s in
  rmOutliers xs = filter (fun x => Z.abs (x - med) <=? 3 * 1) xs /\
  (forall x, In x (rmOutliers xs) <-> In x xs /\ Z.abs (x - med) <= 3).
Proof.
  intros Hb Hlen Hs Hp Hmad med.
  assert (Forall safe_nat xs) as Hxs.
  { eapply Forall_impl; [|exact Hb]. unfold safe_nat, MAX_SAFE_INTEGER.
    cbv beta. intros x Hx. lia. }
  rewrite deviations_exact in Hmad by exact Hxs.
  pose proof (rmOutliers_safe xs Hxs Hlen) as Heq. cbv zeta in Heq.
  rewrite Hmad in Heq. cbn [Z.eqb] in Heq. unfold keep_within in Heq.
  rewrite (median_exact xs s Hb Hs Hp) in Heq. fold med in Heq.
  split; [exact Heq|].
  intros x. rewrite Heq, filter_In, Z.leb_le. reflexivity.
Qed.

Lemma rmOutliers_zero_mad_witness :
  rmOutliers [5; 5; 5; 5; 100] =
  filter (fun x => Z.abs (x - median_of_sorted [5; 5; 5; 5; 100]) <=? 3 * 1)
         [5; 5; 5; 5; 100].
Proof.
  refine (proj1 (rmOutliers_zero_mad [5; 5; 5; 5; 100] [5; 5; 5; 5; 100]
                   _ _ _ _ _)).
  - repeat constructor; lia.
  - cbn. lia.
  - repeat constructor; lia.
  - apply Permutation_refl.
  - vm_compute. reflexivity.
Defined.

(** C7 as stated fails: with a zero deviation median the point 5, at the
    median, survives, and the point 100, more than 3 units away, does
    not.  Above 2^52 the survivors are not even the points at most 3 units
    from the median: in the ascending sequence [ys] the deviation median
    computes to 0 and the point 2^52 - 2, exactly 3 units from the median
    2^52 + 1, is dropped, because the code measures from its rounded
    median 2^52 + 2. *)
Lemma zero_mad_survivors :
  let xs := [5; 5; 5; 5; 100] in
  let med := median xs in
  let ys := [4503599627370494; 4503599627370497; 4503599627370498;
             4503599627370498] in
  ((4 <= length xs)%nat /\
   median (map (fun x => Z.abs (sub x med)) xs) = 0 /\
   In 5 (rmOutliers xs) /\ ~ 3 < Z.abs (5 - med) /\
   3 < Z.abs (100 - med) /\ ~ In 100 (rmOutliers xs)) /\
  ((4 <= length ys)%nat /\ Sorted Z.le ys /\
   median (map (fun x => Z.abs (sub x (median ys))) ys) = 0 /\
   median_of_sorted ys = 4503599627370497 /\
   median ys = 4503599627370498 /\
   rmOutliers ys = [4503599627370497; 4503599627370498; 4503599627370498]).
Proof.
  cbv zeta. split.
  - replace (median [5; 5; 5; 5; 100]) with 5 by (vm_compute; reflexivity).
    replace (rmOutliers [5; 5; 5; 5; 100]) with [5; 5; 5; 5]
      by (vm_compute; reflexivity).
    cbn [length In]. repeat split; lia.
  - split; [cbn; lia|]. split; [repeat constructor; lia|].
    repeat split; vm_compute; reflexivity.
Qed.

(** *** The filter never empties a sequence *)

Lemma round_nat_representable (n : Z) : 0 <= n -> representable (round_nat n).
Proof.
  intros Hn.
  destruct (round_nat_rounded n) as [Hle|s q r Hs _ Hq _ _ _ _|s q r Hs _ Hq _ _ _ _].
  - exists n, 0. rewrite Z.pow_0_r. lia.
  - exists q, s. lia.
  - exists (q + 1), s. lia.
Qed.

Lemma deviation_representable (z : Z) : representable (Z.abs (fl z)).
Proof. rewrite abs_fl. apply round_nat_representable. lia. Qed.

Lemma representable_nonneg (v : Z) : representable v -> 0 <= v.
Proof.
  intros (k & t & Hk & Ht & ->). pose proof (pow2_pos t Ht). nia.
Qed.

(** A representable integer below [n] is below the rounding of [n]. *)
Lemma round_nat_above (n v : Z) : representable v -> v <= n -> v <= round_nat n.
Proof.
  intros (k & t & Hk & Ht & ->). now apply round_nat_above_grid.
Qed.

Lemma representable_double (v : Z) : representable v -> representable (2 * v).
Proof.
  intros (k & t & Hk & Ht & ->). exists k, (t + 1).
  rewrite Z.pow_add_r by lia. change (2 ^ 1) with 2. split; [lia|]. split; lia.
Qed.

Lemma middle_lt (n : nat) : n <> 0%nat -> (n / 2 < n)%nat.
Proof. intros H. apply Nat.div_lt; lia. Qed.

(** Some element is at most the median: the middle element itself, or the
    smaller of the two middle elements. *)
Lemma median_above_some (l : list Z) :
  l <> [] -> Forall representable l -> exists d, In d l /\ d <= median l.
Proof.
  intros Hne Hrep. unfold median.
  pose proof (sort_length by_difference l) as Hlen.
  pose proof (fun x => sort_In by_difference x l) as Hin.
  set (s := sort by_difference l) in *.
  assert (length s <> 0%nat) as Hs by (rewrite Hlen; destruct l; cbn; congruence).
  destruct (Nat.eqb_spec (length s) 0) as [|_]; [contradiction|]. cbn [negb].
  pose proof (middle_lt _ Hs) as Hm.
  destruct (length s mod 2 =? 0)%nat; cbn [negb].
  - set (a := nth (length s / 2 - 1) s 0). set (b := nth (length s / 2) s 0).
    assert (In a l) as Ha by (apply Hin, nth_In; lia).
    assert (In b l) as Hb by (apply Hin, nth_In; exact Hm).
    rewrite Forall_forall in Hrep.
    pose proof (representable_nonneg a (Hrep a Ha)).
    pose proof (representable_nonneg b (Hrep b Hb)).
    unfold half_floor, add. rewrite fl_nonneg by lia.
    destruct (Z.le_gt_cases a b).
    + exists a. split; [exact Ha|]. apply Z.div_le_lower_bound; [lia|].
      apply round_nat_above; [apply representable_double; auto|lia].
    + exists b. split; [exact Hb|]. apply Z.div_le_lower_bound; [lia|].
      apply round_nat_above; [apply representable_double; auto|lia].
  - exists (nth (length s / 2) s 0). split; [|lia]. apply Hin, nth_In. exact Hm.
Qed.

Lemma filter_subseq (f : Z -> bool) (l : list Z) : subseq (filter f l) l.
Proof.
  induction l as [|x l IH]; cbn; [constructor|].
  destruct (f x); now constructor.
Qed.

Lemma subseq_refl (l : list Z) : subseq l l.
Proof. induction l; now constructor. Qed.

(** C8: the result of the filter is a subsequence of its input, and it is
    not empty when the input is not: the element whose deviation from the
    median is smallest is always kept. *)
Theorem rmOutliers_subseq_nonempty (xs : list Z) :
  subseq (rmOutliers xs) xs /\ (xs <> [] -> rmOutliers xs <> []).
Proof.
  unfold rmOutliers. destruct (Nat.ltb_spec (length xs) 4) as [|Hlen].
  { split; [apply subseq_refl|auto]. }
  cbv zeta. split; [apply filter_subseq|]. intros Hne.
  set (med := median xs).
  set (devs := map (fun x => Z.abs (sub x med)) xs).
  destruct (median_above_some devs) as (d & Hd & Hle).
  { subst devs. destruct xs; [contradiction|discriminate]. }
  { subst devs. rewrite Forall_forall. intros d Hd.
    apply in_map_iff in Hd as (x & <- & _). apply deviation_representable. }
  subst devs. apply in_map_iff in Hd as (x & <- & Hx).
  set (mad0 := median (map (fun x => Z.abs (sub x med)) xs)) in *.
  assert (In x (filter (fun x0 => Z.abs (sub x0 med) <=? mul 3 (if mad0 =? 0 then 1 else mad0)) xs))
    as Hkept.
  { apply filter_In. split; [exact Hx|]. apply Z.leb_le.
    pose proof (deviation_representable (x - med)) as Hrep.
    pose proof (representable_nonneg _ Hrep).
    fold (sub x med) in *.
    unfold mul. destruct (Z.eqb_spec mad0 0).
    - rewrite fl_nonneg by lia. apply round_nat_above; [exact Hrep|lia].
    - rewrite fl_nonneg by lia. apply round_nat_above; [exact Hrep|lia]. }
  intros Hnil. rewrite Hnil in Hkept. exact Hkept.
Qed.

Lemma rmOutliers_subseq_nonempty_witness : rmOutliers [1; 2; 3; 4; 900] <> [].
Proof.
  apply (proj2 (rmOutliers_subseq_nonempty [1; 2; 3; 4; 900])). discriminate.
Defined.

(** ** The recommendation (specification 4.3) *)

(** [1 + 0.12] is the binary64 number nearest to 1.12, a little above it:
    25 times its numerator is 28 * 2^53 + 24. *)
Lemma one_plus_jitter : dadd_int 1 jitter = Dyadic 10088063165309912 53.
Proof. vm_compute. reflexivity. Qed.

(** The literal is correctly rounded: it is within half a unit in the last
    place of 12/100. *)
Lemma jitter_nearest : Z.abs (100 * num jitter - 12 * 2 ^ scale jitter) <= 50.
Proof. vm_compute. discriminate. Qed.

Lemma rec_unfold (b p : Z) :
  0 <= b -> 0 <= p ->
  rec b p = round_nat (round_nat (b * 10088063165309912) / 2 ^ 53 + tip p).
Proof.
  intros Hb Hp. unfold rec, add, dmul_int, dround, dfloor.
  rewrite one_plus_jitter. cbn [num scale].
  rewrite (fl_nonneg (b * _)) by lia.
  rewrite fl_nonneg; [reflexivity|].
  pose proof (round_nat_nonneg (b * 10088063165309912) ltac:(lia)).
  assert (0 <= round_nat (b * 10088063165309912) / 2 ^ 53)
    by (apply Z.div_pos; lia).
  unfold tip. lia.
Qed.

(** Rounding up adds at most half a unit in the last place. *)
Lemma round_nat_error (n e : Z) :
  1 <= e -> 0 <= n < 2 ^ (53 + e) -> round_nat n <= n + 2 ^ (e - 1).
Proof.
  intros He Hn. pose proof (pow2_pos (e - 1) ltac:(lia)) as Hpe.
  destruct (round_nat_rounded n)
    as [|s q r Hs Hn' Hq Hr0 _ _ _|s q r Hs Hn' Hq Hr0 Hr1 _ Hl]; [lia| |].
  - pose proof (pow2_pos s ltac:(lia)). lia.
  - pose proof (pow2_pos s ltac:(lia)).
    assert (s <= e) as Hse.
    { assert (Z.log2 n < 53 + e) by (apply Z.log2_lt_pow2; nia). lia. }
    assert (2 ^ s <= 2 ^ e) by (apply Z.pow_le_mono_r; lia).
    assert (2 ^ e = 2 * 2 ^ (e - 1)) as Hpow.
    { rewrite <- Z.pow_succ_r by lia. f_equal. lia. }
    lia.
Qed.

(** The floor of the rounded product is the floor of the exact product
    as long as the base fee is below 13 * 2^44. *)
Lemma floor_product_exact (b : Z) :
  0 <= b < 13 * 2 ^ 44 ->
  round_nat (b * 10088063165309912) / 2 ^ 53 = 112 * b / 100.
Proof.
  intros Hb.
  pose proof (Z.div_mod (112 * b) 100 ltac:(lia)) as Hdm.
  pose proof (Z.mod_pos_bound (112 * b) 100 ltac:(lia)) as Hr.
  set (N := 112 * b / 100) in *. set (f := (112 * b) mod 100) in *.
  assert (N * 2 ^ 53 <= round_nat (b * 10088063165309912)) as Hlo
      by (apply round_nat_above_grid; lia).
  pose proof (round_nat_error (b * 10088063165309912) 48 ltac:(lia) ltac:(lia))
    as Hup.
  change (2 ^ (48 - 1)) with (2 ^ 47) in Hup.
  (* 112 b = 100 N + f, and f is a multiple of 4 *)
  assert (f <= 96) as Hf.
  { assert (f mod 4 = 0) as H4.
    { replace f with (112 * b - 100 * N) by lia.
      replace (112 * b - 100 * N) with ((28 * b - 25 * N) * 4) by lia.
      apply Z.mod_mul. lia. }
    pose proof (Z.div_mod f 4 ltac:(lia)). lia. }
  symmetry.
  apply (Z.div_unique _ _ N (round_nat (b * 10088063165309912) - N * 2 ^ 53)); lia.
Qed.

(** C4, as amended: for every base fee median below 13 * 2^44 and every
    priority fee median of at most 2^52, both non-negative, the
    recommendation equals floor(baseFeeMedian * 1.12) +
    max(priorityFeeMedian, 1000000); for priorityFeeMedian = 0 it is
    floor(baseFeeMedian * 1.12) + 1000000. *)
Theorem rec_exact (b p : Z) :
  0 <= b < 13 * 2 ^ 44 -> 0 <= p <= 2 ^ 52 ->
  rec b p = recommended_exact b p /\
  rec b 0 = 112 * b / 100 + minimumTip.
Proof.
  intros Hb Hp.
  assert (forall p', 0 <= p' <= 2 ^ 52 -> rec b p' = recommended_exact b p') as H.
  { intros p' Hp'. rewrite rec_unfold by lia. rewrite floor_product_exact by exact Hb.
    unfold recommended_exact, tip, minimumTip.
    assert (0 <= 112 * b / 100 < 2 ^ 49).
    { split; [apply Z.div_pos; lia|apply Z.div_lt_upper_bound; lia]. }
    apply round_nat_small. lia. }
  split; [apply H, Hp|].
  rewrite H by lia. reflexivity.
Qed.

Lemma rec_exact_witness : rec 100 10 = recommended_exact 100 10.
Proof. refine (proj1 (rec_exact 100 10 _ _)); lia. Defined.

(** C4 as stated fails: at baseFeeMedian = 13 * 2^44 the product with the
    binary64 number 1.12 lies halfway between two binary64 numbers and is
    rounded up to the next integer. *)
Lemma rec_rounds_up :
  let b := 228698418577408 in
  0 <= b /\ rec b 0 = 256142229806697 /\ recommended_exact b 0 = 256142229806696.
Proof. cbv zeta. split; [lia|]. split; vm_compute; reflexivity. Qed.

(** C5: the recommendation does not decrease when either median
    increases, and it is at least the effective tip, which is at least the
    minimum tip. *)
Theorem rec_monotone (b b' p p' : Z) :
  0 <= b <= b' -> 0 <= p <= p' -> representable p ->
  rec b p <= rec b' p' /\ tip p <= rec b p /\ minimumTip <= tip p.
Proof.
  intros Hb Hp Hrep. rewrite !rec_unfold by lia.
  pose proof (round_nat_nonneg (b * 10088063165309912) ltac:(lia)) as H0.
  assert (0 <= round_nat (b * 10088063165309912) / 2 ^ 53) as Hfloor
      by (apply Z.div_pos; lia).
  split; [|split].
  - apply round_nat_mono. apply Z.add_le_mono.
    + apply Z.div_le_mono; [lia|]. apply round_nat_mono. nia.
    + unfold tip. lia.
  - apply round_nat_above; [|lia].
    unfold tip. destruct (Z.max_spec p 1000000) as [[_ ->]|[_ ->]];
      [|exact Hrep].
    exists 1000000, 0. rewrite Z.pow_0_r. lia.
  - unfold tip, minimumTip. lia.
Qed.

Lemma rec_monotone_witness : rec 100 10 <= rec 102 2000000.
Proof.
  refine (proj1 (rec_monotone 100 102 10 2000000 _ _ _)); try lia.
  exists 10, 0. rewrite Z.pow_0_r. lia.
Defined.

(** ** The run (specification 4.4 and 7) *)

(** C6: with no sample the run ends with [process.exit(1)] after the line
    [no samples] on standard error, and prints no recommendation. *)
Theorem empty_sample_set_fatal :
  aggregate [] = Exit 1 "no samples" /\
  (forall r, aggregate [] <> Logged r) /\
  (forall env net, collect net (RPCS env) = [] ->
                   main env net = Exit 1 "no samples").
Proof.
  split; [reflexivity|]. split; [discriminate|].
  intros env net H. unfold main. rewrite H. reflexivity.
Qed.

Lemma empty_sample_set_fatal_witness :
  main (mkEnv None None None) (fun _ => Throws) = Exit 1 "no samples".
Proof.
  apply (proj2 (proj2 empty_sample_set_fatal)). reflexivity.
Defined.

(** C10: for every non-empty sample set a recommendation is printed, and
    its providers are the names of all the samples, in order, whether or
    not their fees pass the filter. *)
Theorem providers_all_samples (samples : list Sample) :
  samples <> [] ->
  exists r, aggregate samples = Logged r /\ providers r = map name samples.
Proof.
  intros Hne. unfold aggregate.
  destruct samples as [|s samples]; [contradiction|]. cbn [length Nat.eqb].
  eexists. split; reflexivity.
Qed.

Lemma providers_all_samples_witness :
  exists r,
    aggregate [mkSample "a" 100 10 1; mkSample "b" 101 10 1;
               mkSample "c" 102 10 1; mkSample "d" 99 10 1;
               mkSample "e" 9999 10 1] = Logged r /\
    providers r = ["a"; "b"; "c"; "d"; "e"]%string.
Proof.
  apply (providers_all_samples
           [mkSample "a" 100 10 1; mkSample "b" 101 10 1;
            mkSample "c" 102 10 1; mkSample "d" 99 10 1;
            mkSample "e" 9999 10 1]).
  discriminate.
Defined.

(** The provider [e] is listed although its base fee is filtered out. *)
Example provider_of_outlier_listed :
  let samples := [mkSample "a" 100 10 1; mkSample "b" 101 10 1;
                  mkSample "c" 102 10 1; mkSample "d" 99 10 1;
                  mkSample "e" 9999 10 1] in
  rmOutliers (map base samples) = [100; 101; 102; 99] /\
  exists r, aggregate samples = Logged r /\ In "e"%string (providers r).
Proof.
  cbv zeta. split; [vm_compute; reflexivity|].
  eexists. split; [reflexivity|]. cbn. tauto.
Qed.

(** ** The collector (specification 3) *)

(** C9, as amended: a query that throws, that returns [null], or that
    returns an object whose first reward row is truthy and is not an
    array, produces no sample; a reply whose fields are missing or hold
    hexadecimal quantities produces a sample, in which a missing base
    fee, reward row or block number is 0. *)
Theorem sample_absent_or_defaulted :
  (forall name, sample name Throws = None) /\
  (forall name, sample name (Returns None) = None) /\
  (forall name, sample name ReturnsUnmappable = None) /\
  (forall name fee, exists s,
      sample name (Returns (Some fee)) = Some s /\
      (first (baseFeePerGas fee) = None -> base s = 0) /\
      (first (reward fee) = None -> prio s = 0) /\
      (oldestBlock fee = None -> block s = 0)).
Proof.
  split; [reflexivity|]. split; [reflexivity|]. split; [reflexivity|].
  intros name fee. cbn [sample]. eexists. split; [reflexivity|].
  cbn [base prio block]. repeat split; intros ->; reflexivity.
Qed.

Lemma sample_absent_or_defaulted_witness :
  exists s,
    sample "public" (Returns (Some (mkFeeHistory None (Some [[3; 1; 2]]) (Some 7))))
    = Some s /\ base s = 0.
Proof.
  destruct (proj2 (proj2 (proj2 sample_absent_or_defaulted)) "public"%string
              (mkFeeHistory None (Some [[3; 1; 2]]) (Some 7)))
    as (s & Hs & Hbase & _ & _).
  exists s. split; [exact Hs|]. apply Hbase. reflexivity.
Defined.

(** C9 as stated fails: a reply object without any of the expected fields
    is not parsable as a fee history, and yet it produces a sample, with
    all its fees zero. *)
Lemma sample_of_empty_reply :
  sample "public" (Returns (Some (mkFeeHistory None None None)))
  = Some (mkSample "public" 0 0 0).
Proof. reflexivity. Qed.

(** ** The model on known values *)

(** 2^53 + 1 is the first integer that is not a binary64 number. *)
Example fl_first_inexact :
  fl 9007199254740993 = 9007199254740992 /\
  fl 9007199254740995 = 9007199254740996 /\
  fl (- 9007199254740993) = - 9007199254740992.
Proof. repeat split. Qed.

(** [100 * (1 + 0.12)] is 112.00000000000001, that is 112 + 2^-46. *)
Example hundred_times_jitter :
  dmul_int 100 (dadd_int 1 jitter) = Dyadic (112 * 2 ^ 53 + 2 ^ 7) 53.
Proof. vm_compute. reflexivity. Qed.

(** The end-to-end scenario of the specification. *)
Example end_to_end :
  aggregate [mkSample "a" 100 10 1; mkSample "b" 102 12 1; mkSample "c" 98 8 1]
  = Logged (mkRecommendation ["a"; "b"; "c"]%string 100 10 (112 + 1000000)).
Proof. vm_compute. reflexivity. Qed.

(** ** More about [median] *)

Lemma sort_permutation (xs ys : list Z) :
  Permutation xs ys -> sort by_difference xs = sort by_difference ys.
Proof.
  intros Hp. apply sort_unique; [apply sort_sorted|].
  rewrite sort_perm. now symmetry.
Qed.

(** X1: the median does not depend on the order of the sequence. *)
Theorem median_permutation (xs ys : list Z) :
  Permutation xs ys -> median xs = median ys.
Proof.
  intros Hp. unfold median. rewrite (sort_permutation xs ys Hp). reflexivity.
Qed.

Lemma median_permutation_witness : median [3; 1; 2; 9] = median [1; 3; 2; 9].
Proof. apply median_permutation. apply perm_swap. Defined.

(** A representable integer above [n] is above the rounding of [n]. *)
Lemma round_nat_below (n v : Z) : representable v -> n <= v -> round_nat n <= v.
Proof.
  intros (k & t & Hk & Ht & ->). now apply round_nat_below_grid.
Qed.

(** Some element is at least the median. *)
Lemma median_below_some (l : list Z) :
  l <> [] -> Forall representable l -> exists d, In d l /\ median l <= d.
Proof.
  intros Hne Hrep. unfold median.
  pose proof (sort_length by_difference l) as Hlen.
  pose proof (fun x => sort_In by_difference x l) as Hin.
  set (s := sort by_difference l) in *.
  assert (length s <> 0%nat) as Hs by (rewrite Hlen; destruct l; cbn; congruence).
  destruct (Nat.eqb_spec (length s) 0) as [|_]; [contradiction|]. cbn [negb].
  pose proof (middle_lt _ Hs) as Hm.
  destruct (length s mod 2 =? 0)%nat; cbn [negb].
  - set (a := nth (length s / 2 - 1) s 0). set (b := nth (length s / 2) s 0).
    assert (In a l) as Ha by (apply Hin, nth_In; lia).
    assert (In b l) as Hb by (apply Hin, nth_In; exact Hm).
    rewrite Forall_forall in Hrep.
    pose proof (representable_nonneg a (Hrep a Ha)).
    pose proof (representable_nonneg b (Hrep b Hb)).
    unfold half_floor, add. rewrite fl_nonneg by lia.
    destruct (Z.le_gt_cases a b).
    + exists b. split; [exact Hb|]. apply Z.div_le_upper_bound; [lia|].
      apply round_nat_below; [apply representable_double; auto|lia].
    + exists a. split; [exact Ha|]. apply Z.div_le_upper_bound; [lia|].
      apply round_nat_below; [apply representable_double; auto|lia].
  - exists (nth (length s / 2) s 0). split; [|lia]. apply Hin, nth_In. exact Hm.
Qed.

Lemma safe_representable (z : Z) : safe_nat z -> representable z.
Proof.
  unfold safe_nat, MAX_SAFE_INTEGER. intros H. exists z, 0.
  rewrite Z.pow_0_r. lia.
Qed.

Lemma Forall_safe_representable (xs : list Z) :
  Forall safe_nat xs -> Forall representable xs.
Proof. apply Forall_impl. exact safe_representable. Qed.

(** X2: the median of a non-empty sequence of safe integers lies between
    two of its elements, also when the sum of the two middle elements is
    rounded. *)
Theorem median_between (xs : list Z) :
  xs <> [] -> Forall safe_nat xs ->
  exists a b, In a xs /\ In b xs /\ a <= median xs <= b.
Proof.
  intros Hne Hsafe. pose proof (Forall_safe_representable xs Hsafe) as Hrep.
  destruct (median_above_some xs Hne Hrep) as (a & Ha & Hle).
  destruct (median_below_some xs Hne Hrep) as (b & Hb & Hge).
  exists a, b. auto.
Qed.

Lemma median_between_witness :
  exists a b, In a [7; 100; 9; 8] /\ In b [7; 100; 9; 8] /\
              a <= median [7; 100; 9; 8] <= b.
Proof.
  apply median_between; [discriminate|].
  repeat constructor; unfold MAX_SAFE_INTEGER; lia.
Defined.

(** ** More about [rmOutliers] *)

Lemma nth_sorted (s : list Z) :
  StronglySorted Z.le s ->
  forall i j, (i <= j < length s)%nat -> nth i s 0 <= nth j s 0.
Proof.
  induction 1 as [|x s Hs IH Hx]; intros i j Hij; cbn in Hij; [lia|].
  destruct i, j; cbn; try lia.
  - rewrite Forall_forall in Hx. apply Hx, nth_In. lia.
  - apply IH. lia.
Qed.

(** In an ascending list the elements up to index [j] are at most [t] when
    the element at [j] is. *)
Lemma sorted_count (t : Z) (s : list Z) :
  StronglySorted Z.le s ->
  forall j, (j < length s)%nat -> nth j s 0 <= t ->
            (j + 1 <= length (filter (fun d => (d <=? t)%Z) s))%nat.
Proof.
  induction 1 as [|x s Hs IH Hx]; intros j Hj Ht; cbn in Hj; [lia|].
  assert (x <= t) as Hxt.
  { pose proof (nth_sorted (x :: s) (SSorted_cons x Hs Hx) 0 j) as H0.
    cbn [nth length] in H0. specialize (H0 ltac:(lia)).
    destruct j; cbn [nth] in *; lia. }
  cbn [filter]. destruct (Z.leb_spec x t); [|lia]. cbn [length].
  destruct j as [|j]; [lia|].
  cbn [nth] in Ht. specialize (IH j ltac:(lia) Ht). lia.
Qed.

Lemma filter_length_perm (f : Z -> bool) (l l' : list Z) :
  Permutation l l' -> length (filter f l) = length (filter f l').
Proof.
  induction 1 as [|x l l' _ IH|x y l|l l' l'' _ IH1 _ IH2]; cbn.
  - reflexivity.
  - destruct (f x); cbn; lia.
  - destruct (f x), (f y); reflexivity.
  - lia.
Qed.

Lemma filter_length_mono (f g : Z -> bool) (l : list Z) :
  (forall x, In x l -> f x = true -> g x = true) ->
  (length (filter f l) <= length (filter g l))%nat.
Proof.
  induction l as [|x l IH]; intros H; cbn; [lia|].
  specialize (IH (fun y Hy => H y (or_intror Hy))).
  pose proof (H x (or_introl eq_refl)) as Hx.
  destruct (f x); [rewrite Hx by reflexivity|destruct (g x)]; cbn; lia.
Qed.

Lemma filter_length_map (g : Z -> bool) (f : Z -> Z) (l : list Z) :
  length (filter g (map f l)) = length (filter (fun x => g (f x)) l).
Proof.
  induction l as [|x l IH]; cbn; [reflexivity|].
  destruct (g (f x)); cbn; lia.
Qed.

(** At least half of the elements are at most the median. *)
Lemma median_count (l : list Z) :
  Forall representable l ->
  (length l <= 2 * length (filter (fun d => (d <=? median l)%Z) l))%nat.
Proof.
  intros Hrep.
  destruct l as [|x0 l0]; [cbn; lia|]. set (l := x0 :: l0) in *.
  rewrite (filter_length_perm _ l (sort by_difference l))
    by (symmetry; apply sort_perm).
  unfold median.
  pose proof (sort_length by_difference l) as Hlen.
  pose proof (sort_Forall by_difference representable l Hrep) as Hreps.
  assert (StronglySorted Z.le (sort by_difference l)) as Hss
      by (apply Sorted_StronglySorted; [exact Z.le_trans|apply sort_sorted]).
  set (s := sort by_difference l) in *. rewrite <- Hlen.
  assert (length s <> 0%nat) as Hs by (rewrite Hlen; discriminate).
  destruct (Nat.eqb_spec (length s) 0) as [|_]; [contradiction|]. cbn [negb].
  pose proof (middle_lt _ Hs) as Hm.
  pose proof (Nat.div_mod_eq (length s) 2) as Hdm.
  pose proof (Nat.mod_upper_bound (length s) 2 ltac:(lia)) as Hmod.
  destruct (Nat.eqb_spec (length s mod 2) 0) as [Heven|Hodd]; cbn [negb].
  - set (a := nth (length s / 2 - 1) s 0). set (b := nth (length s / 2) s 0).
    assert (a <= b) as Hab by (apply nth_sorted; [exact Hss|lia]).
    rewrite Forall_forall in Hreps.
    assert (representable a) as Hra by (apply Hreps, nth_In; lia).
    pose proof (representable_nonneg a Hra).
    set (t := half_floor (add a b)).
    assert (a <= t) as Hat.
    { subst t. unfold half_floor, add. rewrite fl_nonneg by lia.
      apply Z.div_le_lower_bound; [lia|].
      apply round_nat_above; [apply representable_double; auto|lia]. }
    pose proof (sorted_count t s Hss (length s / 2 - 1) ltac:(lia) Hat). lia.
  - pose proof (sorted_count (nth (length s / 2) s 0) s Hss (length s / 2) Hm
                  ltac:(lia)). lia.
Qed.

Lemma rmOutliers_majority (xs : list Z) :
  (length xs <= 2 * length (rmOutliers xs))%nat.
Proof.
  unfold rmOutliers. destruct (Nat.ltb_spec (length xs) 4) as [|Hlen]; [lia|].
  cbv zeta. set (med := median xs).
  set (devs := map (fun x => Z.abs (sub x med)) xs).
  set (mad0 := median devs).
  assert (Forall representable devs) as Hrep.
  { subst devs. rewrite Forall_forall. intros d Hd.
    apply in_map_iff in Hd as (x & <- & _). apply deviation_representable. }
  pose proof (median_count devs Hrep) as Hc. fold mad0 in Hc.
  unfold devs in Hc at 2. rewrite filter_length_map in Hc.
  unfold devs in Hc at 1. rewrite length_map in Hc.
  etransitivity; [exact Hc|]. apply Nat.mul_le_mono_l.
  apply filter_length_mono. intros x Hx Hle. apply Z.leb_le in Hle. apply Z.leb_le.
  pose proof (deviation_representable (x - med)) as Hr.
  fold (sub x med) in Hr. pose proof (representable_nonneg _ Hr).
  unfold mul. destruct (Z.eqb_spec mad0 0).
  - rewrite fl_nonneg by lia. apply round_nat_above; [exact Hr|lia].
  - rewrite fl_nonneg by lia. apply round_nat_above; [exact Hr|lia].
Qed.

(** X3: the filter keeps at least half of the elements of every
    sequence. *)
Theorem rmOutliers_keeps_half (xs : list Z) :
  (length xs <= 2 * length (rmOutliers xs))%nat /\
  (forall x, In x (rmOutliers xs) -> In x xs).
Proof.
  split; [apply rmOutliers_majority|].
  intros x. unfold rmOutliers. destruct (length xs <? 4)%nat; [auto|].
  cbv zeta. rewrite filter_In. tauto.
Qed.

(** ** More about the recommendation *)

(** X5: the recommendation is at least the base fee median plus the
    effective tip, as long as that sum is at most 2^53. *)
Theorem rec_covers_base (b p : Z) :
  0 <= b -> 0 <= p -> b + tip p <= 2 ^ 53 -> b + tip p <= rec b p.
Proof.
  intros Hb Hp Hsum. rewrite rec_unfold by lia.
  assert (0 <= tip p) by (unfold tip; lia).
  assert (b <= round_nat (b * 10088063165309912) / 2 ^ 53) as Hfloor.
  { apply Z.div_le_lower_bound; [lia|]. rewrite Z.mul_comm.
    apply round_nat_above_grid; lia. }
  pose proof (round_nat_above_grid
                (round_nat (b * 10088063165309912) / 2 ^ 53 + tip p)
                (b + tip p) 0) as H0.
  rewrite Z.pow_0_r, Z.mul_1_r in H0. apply H0; lia.
Qed.

Lemma rec_covers_base_witness : 100 + tip 10 <= rec 100 10.
Proof. apply rec_covers_base; unfold tip; lia. Defined.

(** ** More about the collector *)

Lemma sample_name (n : string) (resp : Response) (s : Sample) :
  sample n resp = Some s -> name s = n.
Proof.
  destruct resp as [|[fee|]|]; cbn; intros H; inversion H. reflexivity.
Qed.

(** X6: the priority fee of a sample is one of the rewards of the first
    reward row; for a row of odd length it is the median of the row, and
    for a row of even length it is the upper of the two middle rewards. *)
Theorem sample_prio_middle (n : string) (fee : FeeHistory) (row : list Z) :
  first (reward fee) = Some row -> row <> [] ->
  exists s,
    sample n (Returns (Some fee)) = Some s /\
    In (prio s) (map fl row) /\
    prio s = nth (length row / 2) (sort by_difference (map fl row)) 0 /\
    ((length row mod 2 = 1)%nat -> prio s = median (map fl row)).
Proof.
  intros Hrow Hne. cbn [sample]. eexists. split; [reflexivity|].
  cbn [prio]. rewrite Hrow. cbn [or_else]. rewrite length_map.
  assert (length row <> 0%nat) as Hlen by (destruct row; cbn; congruence).
  split; [|split; [reflexivity|]].
  - apply (sort_In by_difference). apply nth_In.
    rewrite sort_length, length_map. now apply middle_lt.
  - intros Hodd. unfold median. rewrite sort_length, length_map.
    destruct (Nat.eqb_spec (length row) 0) as [|_]; [contradiction|].
    rewrite Hodd. reflexivity.
Qed.

Lemma sample_prio_middle_witness :
  exists s,
    sample "public" (Returns (Some (mkFeeHistory (Some [30]) (Some [[5; 1; 3]]) (Some 7))))
    = Some s /\ prio s = median (map fl [5; 1; 3]).
Proof.
  destruct (sample_prio_middle "public"
              (mkFeeHistory (Some [30]) (Some [[5; 1; 3]]) (Some 7)) [5; 1; 3])
    as (s & Hs & _ & _ & Hmed); [reflexivity|discriminate|].
  exists s. split; [exact Hs|]. apply Hmed. reflexivity.
Defined.

(** For a row of even length the priority fee is not the median of the
    row: the rewards 1 and 3 give 3, and their median is 2. *)
Example sample_prio_even_row :
  sample "public" (Returns (Some (mkFeeHistory None (Some [[1; 3]]) None)))
  = Some (mkSample "public" 0 3 0) /\ median [1; 3] = 2.
Proof. split; vm_compute; reflexivity. Qed.

Lemma fl_representable (z : Z) : 0 <= z -> representable (fl z).
Proof. intros H. rewrite fl_nonneg by exact H. now apply round_nat_representable. Qed.

Lemma representable_0 : representable 0.
Proof. exists 0, 0. rewrite Z.pow_0_r. lia. Qed.

Lemma first_In {A : Type} (a : option (list A)) (x : A) :
  first a = Some x -> exists l, a = Some l /\ In x l.
Proof.
  destruct a as [[|y l]|]; cbn; intros H; inversion H. subst.
  eexists. split; [reflexivity|now left].
Qed.

Lemma safe_nat_0 : safe_nat 0.
Proof. unfold safe_nat, MAX_SAFE_INTEGER. lia. Qed.

Lemma fl_safe (z : Z) : safe_nat z -> fl z = z.
Proof. unfold safe_nat, MAX_SAFE_INTEGER. intros H. apply fl_small. lia. Qed.

Lemma sample_safe (n : string) (fee : FeeHistory) (s : Sample) :
  safe_reply fee -> sample n (Returns (Some fee)) = Some s ->
  base s = or_else (first (baseFeePerGas fee)) 0 /\
  block s = or_else (oldestBlock fee) 0 /\
  safe_nat (base s) /\ safe_nat (prio s) /\ safe_nat (block s).
Proof.
  intros (Hbase & Hrew & Hblk) Hs. cbn [sample] in Hs. inversion Hs as [Heq].
  cbn [base prio block]. clear Hs Heq.
  assert (safe_nat (or_else (first (baseFeePerGas fee)) 0)) as Hb.
  { destruct (first (baseFeePerGas fee)) as [x|] eqn:Hf; cbn; [|apply safe_nat_0].
    apply first_In in Hf as (l & Hl & Hx). eauto. }
  assert (safe_nat (or_else (oldestBlock fee) 0)) as Hk.
  { destruct (oldestBlock fee) as [b|] eqn:Hb'; cbn; [eauto|apply safe_nat_0]. }
  rewrite !fl_safe by assumption. repeat split; try apply Hb; try apply Hk.
  all: apply (Forall_nth_default safe_nat); [|apply safe_nat_0].
  all: apply sort_Forall; rewrite Forall_forall; intros v Hv.
  all: apply in_map_iff in Hv as (x & <- & Hx).
  all: destruct (first (reward fee)) as [row|] eqn:Hf; cbn in Hx; [|contradiction].
  all: apply first_In in Hf as (rows & Hrows & Hrow).
  all: rewrite fl_safe by eauto; eauto.
Qed.

(** X7: a reply whose fields are missing or hold safe integers gives a
    sample that bears the name of its provider, whose base fee and block
    are the first base fee and the oldest block of the reply (0 when
    missing), and whose three numbers are safe integers. *)
Theorem sample_fields_numbers (n : string) (fee : FeeHistory) :
  safe_reply fee ->
  exists s,
    sample n (Returns (Some fee)) = Some s /\ name s = n /\
    base s = or_else (first (baseFeePerGas fee)) 0 /\
    block s = or_else (oldestBlock fee) 0 /\
    safe_nat (base s) /\ safe_nat (prio s) /\ safe_nat (block s).
Proof.
  intros Hfee.
  destruct (sample n (Returns (Some fee))) as [s|] eqn:Hs; [|discriminate Hs].
  exists s. split; [reflexivity|]. split; [exact (sample_name _ _ _ Hs)|].
  exact (sample_safe n fee s Hfee Hs).
Qed.

Lemma safe_reply_example :
  safe_reply (mkFeeHistory (Some [30]) (Some [[5; 1; 3]]) None).
Proof.
  unfold safe_reply. split; [|split].
  - intros l x H Hx. inversion H. subst. cbn in Hx.
    unfold safe_nat, MAX_SAFE_INTEGER. lia.
  - intros rows row x H Hrow Hx. inversion H. subst.
    cbn in Hrow. destruct Hrow as [<-|[]]. cbn in Hx.
    unfold safe_nat, MAX_SAFE_INTEGER. lia.
  - intros b H. discriminate H.
Defined.

Lemma sample_fields_numbers_witness :
  exists s,
    sample "public" (Returns (Some (mkFeeHistory (Some [30]) (Some [[5; 1; 3]]) None)))
    = Some s /\ base s = 30.
Proof.
  destruct (sample_fields_numbers "public"
              (mkFeeHistory (Some [30]) (Some [[5; 1; 3]]) None)
              safe_reply_example)
    as (s & Hs & _ & Hb & _).
  exists s. split; [exact Hs|exact Hb].
Defined.

(** ** More about the run *)

Lemma collect_names (net : string -> Response) (entries : list (string * string)) :
  map name (collect net entries) = map fst (filter (answered net) entries).
Proof.
  induction entries as [|[n u] rest IH]; cbn [collect filter map]; [reflexivity|].
  unfold answered at 1. cbn [fst snd].
  destruct (String.eqb u EmptyString); cbn [negb andb]; [exact IH|].
  destruct (sample n (net u)) as [s|] eqn:Hs; [|exact IH].
  cbn [map fst]. rewrite (sample_name _ _ _ Hs), IH. reflexivity.
Qed.

Lemma collect_nil (net : string -> Response) (entries : list (string * string)) :
  collect net entries = [] <->
  (forall e, In e entries -> answered net e = false).
Proof.
  rewrite <- (length_zero_iff_nil (collect _ _)), <- (length_map name),
    collect_names, length_map, length_zero_iff_nil.
  split.
  - intros Hnil e He. destruct (answered net e) eqn:Ha; [|reflexivity].
    assert (In e (filter (answered net) entries)) as Hin
        by (apply filter_In; auto).
    rewrite Hnil in Hin. contradiction.
  - intros H. induction entries as [|e rest IH]; [reflexivity|]. cbn.
    rewrite (H e (or_introl eq_refl)). apply IH. intros e' He'. apply H. now right.
Qed.

Lemma filter_length_le {A : Type} (f : A -> bool) (l : list A) :
  (length (filter f l) <= length l)%nat.
Proof. induction l as [|x l IH]; cbn; [lia|]. destruct (f x); cbn; lia. Qed.

Lemma NoDup_map_filter {A B : Type} (g : A -> B) (f : A -> bool) (l : list A) :
  NoDup (map g l) -> NoDup (map g (filter f l)).
Proof.
  induction l as [|x l IH]; cbn; [auto|]. intros Hnd. inversion Hnd as [|? ? Hx Hl].
  destruct (f x); cbn; [|auto]. constructor; [|auto].
  intros Hin. apply Hx. apply in_map_iff in Hin as (y & <- & Hy).
  apply in_map. apply filter_In in Hy. tauto.
Qed.

Lemma RPCS_names (env : Env) :
  map fst (RPCS env) = ["ankr"; "alchemy"; "public"]%string.
Proof. reflexivity. Qed.

(** What a printed recommendation is made of. *)
Lemma aggregate_logged (samples : list Sample) (r : Recommendation) :
  aggregate samples = Logged r ->
  samples <> [] /\
  providers r = map name samples /\
  baseMedianWei r = median (rmOutliers (map base samples)) /\
  prioMedianWei r = median (rmOutliers (map prio samples)) /\
  recommendedWei r = rec (baseMedianWei r) (prioMedianWei r).
Proof.
  unfold aggregate. destruct samples as [|s samples]; cbn [length Nat.eqb].
  - discriminate.
  - intros H. inversion H. cbn. repeat split. discriminate.
Qed.

Lemma rmOutliers_short (xs : list Z) : (length xs <= 3)%nat -> rmOutliers xs = xs.
Proof.
  intros H. unfold rmOutliers.
  destruct (Nat.ltb_spec (length xs) 4); [reflexivity|lia].
Qed.

Lemma collect_length (net : string -> Response) (entries : list (string * string)) :
  (length (collect net entries) <= length entries)%nat.
Proof.
  rewrite <- (length_map name), collect_names, length_map. apply filter_length_le.
Qed.

(** X8: the providers of a printed recommendation are the names of the
    entries of [RPCS] whose URL is set and whose query gave a sample, in
    the order of [RPCS]: between one and three names, none of them
    twice. *)
Theorem main_providers (env : Env) (net : string -> Response) (r : Recommendation) :
  main env net = Logged r ->
  providers r = map fst (filter (answered net) (RPCS env)) /\
  NoDup (providers r) /\
  (1 <= length (providers r) <= 3)%nat.
Proof.
  unfold main. intros H. apply aggregate_logged in H as (Hne & Hp & _).
  rewrite Hp, collect_names. split; [reflexivity|]. split.
  - apply NoDup_map_filter. rewrite RPCS_names.
    repeat constructor; cbn; intros Hin; repeat destruct Hin as [Hin|Hin];
      try discriminate Hin; exact Hin.
  - rewrite <- collect_names, length_map. split.
    + destruct (collect net (RPCS env)); [contradiction|cbn; lia].
    + apply (collect_length net (RPCS env)).
Qed.

Lemma main_providers_witness :
  providers (mkRecommendation ["public"]%string 30 3 1000033)
  = map fst (filter (answered (fun _ => Returns (Some (mkFeeHistory (Some [30]) (Some [[5; 1; 3]]) None))))
                    (RPCS (mkEnv None None None))).
Proof.
  refine (proj1 (main_providers (mkEnv None None None)
                   (fun _ => Returns (Some (mkFeeHistory (Some [30]) (Some [[5; 1; 3]]) None)))
                   _ _)).
  vm_compute. reflexivity.
Defined.

(** X9: a run never has more than three samples, so its outlier filter
    never drops one: the medians of a printed recommendation are the
    medians of all the collected base fees and priority fees. *)
Theorem main_filter_noop (env : Env) (net : string -> Response) (r : Recommendation) :
  main env net = Logged r ->
  let samples := collect net (RPCS env) in
  rmOutliers (map base samples) = map base samples /\
  rmOutliers (map prio samples) = map prio samples /\
  baseMedianWei r = median (map base samples) /\
  prioMedianWei r = median (map prio samples).
Proof.
  intros H samples. unfold main in H.
  apply aggregate_logged in H as (_ & _ & Hb & Hp & _). fold samples in Hb, Hp.
  pose proof (collect_length net (RPCS env)) as Hlen. fold samples in Hlen.
  cbn [RPCS length] in Hlen.
  assert (rmOutliers (map base samples) = map base samples) as Hrb
      by (apply rmOutliers_short; rewrite length_map; exact Hlen).
  assert (rmOutliers (map prio samples) = map prio samples) as Hrp
      by (apply rmOutliers_short; rewrite length_map; exact Hlen).
  rewrite Hrb in Hb. rewrite Hrp in Hp. auto.
Qed.

Lemma main_filter_noop_witness :
  baseMedianWei (mkRecommendation ["public"]%string 30 3 1000033)
  = median (map base (collect (fun _ => Returns (Some (mkFeeHistory (Some [30]) (Some [[5; 1; 3]]) None)))
                              (RPCS (mkEnv None None None)))).
Proof.
  refine (proj1 (proj2 (proj2 (main_filter_noop (mkEnv None None None)
                   (fun _ => Returns (Some (mkFeeHistory (Some [30]) (Some [[5; 1; 3]]) None)))
                   _ _)))).
  vm_compute. reflexivity.
Defined.

(** X10: a run ends in [process.exit] exactly when no entry of [RPCS] has
    both a URL and a query that gives a sample; the exit code is then 1
    and the line on standard error is [no samples]. *)
Theorem main_exit_iff (env : Env) (net : string -> Response) :
  (forall code msg, main env net = Exit code msg ->
                    code = 1 /\ msg = "no samples"%string) /\
  (main env net = Exit 1 "no samples" <->
   forall e, In e (RPCS env) -> answered net e = false).
Proof.
  unfold main, aggregate. rewrite <- collect_nil.
  destruct (collect net (RPCS env)) as [|s l]; cbn [length Nat.eqb]; split.
  - intros code msg H. inversion H. auto.
  - split; reflexivity.
  - discriminate.
  - split; discriminate.
Qed.

Lemma main_exit_iff_witness :
  main (mkEnv None None None) (fun _ => Returns None) = Exit 1 "no samples".
Proof.
  apply (proj2 (main_exit_iff (mkEnv None None None) (fun _ => Returns None))).
  intros e [<-|[<-|[<-|[]]]]; reflexivity.
Defined.

Lemma env_or_default_nonempty (v : option string) (d : string) :
  d <> EmptyString -> String.eqb (env_or v d) EmptyString = false.
Proof.
  intros Hd. unfold env_or. destruct v as [s|].
  - destruct (String.eqb s EmptyString) eqn:Hs; [|exact Hs].
    now apply String.eqb_neq.
  - now apply String.eqb_neq.
Qed.

(** X11: the public provider always has a URL, the one of [RPC_PUB] or the
    default one; when the query at that URL gives a sample, the run prints
    a recommendation that lists [public], whatever the other providers
    do. *)
Theorem main_public_fallback (env : Env) (net : string -> Response) :
  sample "public" (net (env_or (RPC_PUB env) "https://cloudflare-eth.com"))
  <> None ->
  exists r, main env net = Logged r /\ In "public"%string (providers r).
Proof.
  intros Hnet.
  assert (answered net ("public"%string, env_or (RPC_PUB env) "https://cloudflare-eth.com")
          = true) as Hans.
  { unfold answered. cbn [fst snd].
    rewrite env_or_default_nonempty by discriminate.
    destruct (sample "public" _); [reflexivity|contradiction]. }
  unfold main, aggregate.
  assert (In "public"%string (map name (collect net (RPCS env)))) as Hin.
  { rewrite collect_names.
    apply (in_map fst _ ("public"%string, env_or (RPC_PUB env) "https://cloudflare-eth.com")).
    apply filter_In. split; [|exact Hans]. cbn. auto. }
  destruct (collect net (RPCS env)) as [|s l]; [contradiction|].
  cbn [length Nat.eqb]. eexists. split; [reflexivity|exact Hin].
Qed.

Lemma main_public_fallback_witness :
  exists r,
    main (mkEnv None None None)
         (fun _ => Returns (Some (mkFeeHistory None None None))) = Logged r /\
    In "public"%string (providers r).
Proof.
  apply (main_public_fallback (mkEnv None None None)
           (fun _ => Returns (Some (mkFeeHistory None None None)))).
  discriminate.
Defined.

(** X12: a provider whose environment variable is unset or empty is not
    queried: [ankr] (or [alchemy]) is listed in a printed recommendation
    only when [RPC_ANKR] (or [RPC_ALCH]) is a non-empty URL and the query
    at that URL gives a sample. *)
Theorem main_unconfigured_skipped (env : Env) (net : string -> Response)
    (r : Recommendation) :
  main env net = Logged r ->
  (In "ankr"%string (providers r) ->
   exists url, RPC_ANKR env = Some url /\ url <> EmptyString /\
               sample "ankr" (net url) <> None) /\
  (In "alchemy"%string (providers r) ->
   exists url, RPC_ALCH env = Some url /\ url <> EmptyString /\
               sample "alchemy" (net url) <> None).
Proof.
  intros H. unfold main in H. apply aggregate_logged in H as (_ & Hp & _).
  rewrite Hp, collect_names. clear Hp.
  assert (forall v n, answered net (n, env_or v EmptyString) = true ->
                      exists url, v = Some url /\ url <> EmptyString /\
                                  sample n (net url) <> None) as Hans.
  { intros v n. unfold answered, env_or. cbn [fst snd].
    destruct v as [s|]; [|discriminate].
    destruct (String.eqb s EmptyString) eqn:Hs; [discriminate|].
    rewrite Hs. cbn [negb andb]. intros Hsome. exists s.
    split; [reflexivity|]. split; [now apply String.eqb_neq|].
    destruct (sample n (net s)); [discriminate|discriminate Hsome]. }
  split; intros Hin; apply in_map_iff in Hin as ([n u] & Hn & Hf);
    cbn [fst] in Hn; subst n; apply filter_In in Hf as [Hin Ha];
    cbn [RPCS In] in Hin;
    destruct Hin as [Heq|[Heq|[Heq|[]]]]; inversion Heq; subst u;
    apply Hans; exact Ha.
Qed.

Lemma main_unconfigured_skipped_witness :
  exists url,
    RPC_ANKR (mkEnv (Some "https://a"%string) None None) = Some url /\
    url <> EmptyString /\
    sample "ankr" (Returns (Some (mkFeeHistory None None None))) <> None.
Proof.
  refine (proj1 (main_unconfigured_skipped
                   (mkEnv (Some "https://a"%string) None None)
                   (fun _ => Returns (Some (mkFeeHistory None None None)))
                   (mkRecommendation ["ankr"; "public"]%string 0 0 1000000) _) _).
  - vm_compute. reflexivity.
  - cbn. auto.
Defined.

(** *** Where the medians of a recommendation lie *)

Lemma rmOutliers_In (xs : list Z) (x : Z) : In x (rmOutliers xs) -> In x xs.
Proof.
  unfold rmOutliers. destruct (length xs <? 4)%nat; [auto|].
  cbv zeta. rewrite filter_In. tauto.
Qed.

Lemma median_of_kept_between (xs : list Z) :
  xs <> [] -> Forall representable xs ->
  exists a b, In a xs /\ In b xs /\ a <= median (rmOutliers xs) <= b.
Proof.
  intros Hne Hrep.
  assert (rmOutliers xs <> []) as Hkept.
  { pose proof (rmOutliers_majority xs) as Hm. intros Hnil. rewrite Hnil in Hm.
    destruct xs; [contradiction|cbn in Hm; lia]. }
  assert (Forall representable (rmOutliers xs)) as Hrepk.
  { rewrite Forall_forall in *. intros x Hx. apply Hrep, rmOutliers_In, Hx. }
  destruct (median_above_some _ Hkept Hrepk) as (a & Ha & Hle).
  destruct (median_below_some _ Hkept Hrepk) as (b & Hb & Hge).
  exists a, b. auto using rmOutliers_In.
Qed.

(** X13: for a non-empty set of samples whose fees are safe integers, the
    base fee median of the recommendation lies between the base fees of
    two of the samples, and so does the priority fee median between two
    priority fees. *)
Theorem aggregate_medians_between (samples : list Sample) :
  samples <> [] ->
  Forall (fun s => safe_nat (base s) /\ safe_nat (prio s)) samples ->
  exists r,
    aggregate samples = Logged r /\
    (exists s1 s2, In s1 samples /\ In s2 samples /\
                   base s1 <= baseMedianWei r <= base s2) /\
    (exists s1 s2, In s1 samples /\ In s2 samples /\
                   prio s1 <= prioMedianWei r <= prio s2).
Proof.
  intros Hne Hsafe.
  assert (Forall (fun s => representable (base s) /\ representable (prio s))
                 samples) as Hrep.
  { eapply Forall_impl; [|exact Hsafe]. cbv beta.
    intros s [Hb Hp]. split; now apply safe_representable. }
  assert (forall f : Sample -> Z,
             Forall (fun s => representable (f s)) samples ->
             exists s1 s2, In s1 samples /\ In s2 samples /\
                           f s1 <= median (rmOutliers (map f samples)) <= f s2) as Hcol.
  { intros f Hf.
    destruct (median_of_kept_between (map f samples)) as (a & b & Ha & Hb & Hab).
    - destruct samples; [contradiction|discriminate].
    - rewrite Forall_forall in *. intros x Hx.
      apply in_map_iff in Hx as (s & <- & Hs). auto.
    - apply in_map_iff in Ha as (s1 & <- & Hs1).
      apply in_map_iff in Hb as (s2 & <- & Hs2). eauto. }
  unfold aggregate. destruct samples as [|s0 rest] eqn:Hsam; [contradiction|].
  cbn [length Nat.eqb]. rewrite <- Hsam in *. eexists. split; [reflexivity|].
  cbn [baseMedianWei prioMedianWei]. split; apply Hcol.
  - eapply Forall_impl; [|exact Hrep]. cbn. tauto.
  - eapply Forall_impl; [|exact Hrep]. cbn. tauto.
Qed.

Lemma aggregate_medians_between_witness :
  exists r,
    aggregate [mkSample "a" 100 10 1; mkSample "b" 102 12 1] = Logged r /\
    (exists s1 s2, In s1 [mkSample "a" 100 10 1; mkSample "b" 102 12 1] /\
                   In s2 [mkSample "a" 100 10 1; mkSample "b" 102 12 1] /\
                   base s1 <= baseMedianWei r <= base s2).
Proof.
  destruct (aggregate_medians_between [mkSample "a" 100 10 1; mkSample "b" 102 12 1])
    as (r & Hr & Hb & _).
  - discriminate.
  - repeat constructor; unfold MAX_SAFE_INTEGER; cbn; lia.
  - exists r. auto.
Defined.

(** ** The numbers of a printed recommendation *)

Lemma representable_shift (v j : Z) :
  representable v -> 0 <= j -> representable (v * 2 ^ j).
Proof.
  intros (k & t & Hk & Ht & ->) Hj. exists k, (t + j).
  rewrite Z.pow_add_r by lia. split; [lia|]. split; [lia|ring].
Qed.

Lemma representable_half (v : Z) : representable v -> representable (v / 2).
Proof.
  intros (k & t & Hk & Ht & ->).
  destruct (Z.eq_dec t 0) as [->|Hne].
  - rewrite Z.pow_0_r, Z.mul_1_r. exists (k / 2), 0. rewrite Z.pow_0_r.
    split; [|split; lia]. split; [apply Z.div_pos; lia|].
    apply Z.div_le_upper_bound; lia.
  - exists k, (t - 1). split; [lia|]. split; [lia|].
    replace (2 ^ t) with (2 ^ (t - 1) * 2)
      by (rewrite Z.mul_comm, <- Z.pow_succ_r by lia; f_equal; lia).
    rewrite Z.mul_assoc, Z.div_mul by lia. reflexivity.
Qed.

Lemma median_representable (l : list Z) :
  Forall representable l -> representable (median l).
Proof.
  intros Hrep. unfold median.
  pose proof (sort_Forall by_difference representable l Hrep) as Hs.
  set (s := sort by_difference l) in *.
  destruct (length s =? 0)%nat; cbn [negb]; [apply representable_0|].
  destruct (length s mod 2 =? 0)%nat; cbn [negb].
  - unfold half_floor, add. apply representable_half.
    pose proof (Forall_nth_default _ s 0 (length s / 2 - 1) Hs representable_0) as Ha.
    pose proof (Forall_nth_default _ s 0 (length s / 2) Hs representable_0) as Hb.
    apply representable_nonneg in Ha, Hb.
    rewrite fl_nonneg by lia. apply round_nat_representable. lia.
  - apply Forall_nth_default; [exact Hs|apply representable_0].
Qed.

Lemma tip_representable (p : Z) : representable p -> representable (tip p).
Proof.
  intros Hp. unfold tip. destruct (Z.max_spec p 1000000) as [[_ ->]|[_ ->]];
    [|exact Hp].
  exists 1000000, 0. rewrite Z.pow_0_r. lia.
Qed.

Lemma rec_above (b p : Z) :
  representable b -> representable p ->
  b <= rec b p /\ tip p <= rec b p /\ 1000000 <= rec b p.
Proof.
  intros Hb Hp.
  pose proof (representable_nonneg b Hb). pose proof (representable_nonneg p Hp).
  rewrite rec_unfold by lia.
  assert (b <= round_nat (b * 10088063165309912) / 2 ^ 53) as Hfloor.
  { apply Z.div_le_lower_bound; [lia|]. rewrite Z.mul_comm.
    apply round_nat_above; [apply representable_shift; [exact Hb|lia]|lia]. }
  pose proof (tip_representable p Hp) as Htip.
  assert (1000000 <= tip p) by (unfold tip; lia).
  assert (tip p <= round_nat (round_nat (b * 10088063165309912) / 2 ^ 53 + tip p))
    by (apply round_nat_above; [exact Htip|lia]).
  split; [|split; lia].
  apply round_nat_above; [exact Hb|lia].
Qed.

Lemma rmOutliers_representable (xs : list Z) :
  Forall representable xs -> Forall representable (rmOutliers xs).
Proof.
  rewrite !Forall_forall. intros H x Hx. apply H, rmOutliers_In, Hx.
Qed.

(** The medians of a recommendation are numbers when the fees are. *)
Lemma medians_representable (samples : list Sample) (r : Recommendation) :
  Forall (fun s => representable (base s) /\ representable (prio s)) samples ->
  aggregate samples = Logged r ->
  representable (baseMedianWei r) /\ representable (prioMedianWei r).
Proof.
  intros Hrep H. apply aggregate_logged in H as (_ & _ & Hb & Hp & _).
  rewrite Hb, Hp.
  split; apply median_representable, rmOutliers_representable;
    rewrite Forall_forall in *; intros x Hx;
    apply in_map_iff in Hx as (s & <- & Hs); apply Hrep, Hs.
Qed.

(** X14: for samples with representable fees, the medians of the printed
    recommendation are non-negative, and the recommended fee is at least
    the base fee median, at least the effective tip and at least
    1,000,000. *)
Theorem aggregate_recommendation_floor (samples : list Sample) (r : Recommendation) :
  Forall (fun s => representable (base s) /\ representable (prio s)) samples ->
  aggregate samples = Logged r ->
  0 <= baseMedianWei r /\ 0 <= prioMedianWei r /\
  baseMedianWei r <= recommendedWei r /\
  tip (prioMedianWei r) <= recommendedWei r /\
  1000000 <= recommendedWei r.
Proof.
  intros Hrep H.
  destruct (medians_representable samples r Hrep H) as [Hrb Hrp].
  apply aggregate_logged in H as (_ & _ & _ & _ & Hr).
  rewrite Hr. pose proof (rec_above _ _ Hrb Hrp).
  pose proof (representable_nonneg _ Hrb). pose proof (representable_nonneg _ Hrp).
  lia.
Qed.

Lemma aggregate_recommendation_floor_witness :
  1000000 <= recommendedWei (mkRecommendation ["a"; "b"]%string 101 11 1000113).
Proof.
  refine (proj2 (proj2 (proj2 (proj2
            (aggregate_recommendation_floor
               [mkSample "a" 100 10 1; mkSample "b" 102 12 1] _ _ _))))).
  - repeat constructor; apply safe_representable;
      unfold safe_nat, MAX_SAFE_INTEGER; cbn; lia.
  - vm_compute. reflexivity.
Defined.

Lemma collect_representable (net : string -> Response)
    (entries : list (string * string)) :
  (forall url fee, net url = Returns (Some fee) -> safe_reply fee) ->
  Forall (fun s => representable (base s) /\ representable (prio s))
         (collect net entries).
Proof.
  intros Hnet. induction entries as [|[n u] rest IH]; cbn [collect]; [constructor|].
  destruct (String.eqb u EmptyString); [exact IH|].
  destruct (sample n (net u)) as [s|] eqn:Hs; [|exact IH].
  constructor; [|exact IH].
  destruct (net u) as [|[fee|]|] eqn:Hu; try discriminate Hs.
  destruct (sample_safe n fee s (Hnet u fee Hu) Hs) as (_ & _ & Hb & Hp & _).
  split; now apply safe_representable.
Qed.

(** X15: when the quantities of every reply are safe integers, a run that
    prints a recommendation prints medians that lie between the fees of
    two of the collected samples, and a recommended fee of at least the
    base fee median and at least 1,000,000. *)
Theorem main_recommendation_sane (env : Env) (net : string -> Response)
    (r : Recommendation) :
  (forall url fee, net url = Returns (Some fee) -> safe_reply fee) ->
  main env net = Logged r ->
  let samples := collect net (RPCS env) in
  (exists s1 s2, In s1 samples /\ In s2 samples /\
                 0 <= base s1 <= baseMedianWei r /\ baseMedianWei r <= base s2) /\
  (exists s1 s2, In s1 samples /\ In s2 samples /\
                 0 <= prio s1 <= prioMedianWei r /\ prioMedianWei r <= prio s2) /\
  baseMedianWei r <= recommendedWei r /\
  1000000 <= recommendedWei r.
Proof.
  intros Hnet H samples. unfold main in H. fold samples in H.
  pose proof (collect_representable net (RPCS env) Hnet) as Hrep.
  fold samples in Hrep.
  destruct (medians_representable samples r Hrep H) as [Hrb Hrp].
  pose proof (aggregate_logged samples r H) as (Hne & _ & Hb & Hp & Hr).
  pose proof (rec_above _ _ Hrb Hrp) as (Hbr & _ & Hmin). rewrite <- Hr in Hbr, Hmin.
  assert (forall f : Sample -> Z,
             Forall (fun s => representable (f s)) samples ->
             exists s1 s2, In s1 samples /\ In s2 samples /\
                           0 <= f s1 <= median (rmOutliers (map f samples)) /\
                           median (rmOutliers (map f samples)) <= f s2) as Hcol.
  { intros f Hf.
    destruct (median_of_kept_between (map f samples)) as (a & b & Ha & Hb' & Hab).
    - destruct samples; [contradiction|discriminate].
    - rewrite Forall_forall in *. intros x Hx.
      apply in_map_iff in Hx as (s & <- & Hs). auto.
    - apply in_map_iff in Ha as (s1 & <- & Hs1).
      apply in_map_iff in Hb' as (s2 & <- & Hs2).
      rewrite Forall_forall in Hf.
      pose proof (representable_nonneg _ (Hf s1 Hs1)).
      exists s1, s2. repeat split; auto; lia. }
  rewrite Hb, Hp. rewrite Hb in Hbr.
  split; [apply Hcol; eapply Forall_impl; [|exact Hrep]; cbn; tauto|].
  split; [apply Hcol; eapply Forall_impl; [|exact Hrep]; cbn; tauto|].
  auto.
Qed.

Lemma main_recommendation_sane_witness :
  1000000 <= recommendedWei (mkRecommendation ["public"]%string 30 3 1000033).
Proof.
  refine (proj2 (proj2 (proj2
            (main_recommendation_sane (mkEnv None None None)
               (fun _ => Returns (Some (mkFeeHistory (Some [30]) (Some [[5; 1; 3]]) None)))
               _ _ _)))).
  - intros url fee H. inversion H. exact safe_reply_example.
  - vm_compute. reflexivity.
Defined.

(** ** The [pretty] part *)

(** The quotient computed by [ddiv_int] is within half a unit in the last
    place of the exact quotient, and its scale is at least 52 minus the
    difference of the bit lengths. *)
Lemma ddiv_int_near (n d : Z) :
  0 < n -> 0 < d ->
  52 - (Z.log2 n - Z.log2 d) <= scale (ddiv_int n d) /\
  (0 <= scale (ddiv_int n d) ->
   2 * Z.abs (num (ddiv_int n d) * d - n * 2 ^ scale (ddiv_int n d)) <= d).
Proof.
  intros Hn Hd. unfold ddiv_int. cbv zeta.
  set (l0 := Z.log2 n - Z.log2 d).
  set (below := if 0 <=? l0 then n <? d * 2 ^ l0 else n * 2 ^ (- l0) <? d).
  set (e := 52 - (if below then l0 - 1 else l0)).
  assert (52 - l0 <= e) as He by (subst e; destruct below; lia).
  cbn [num scale]. split; [exact He|]. intros He0.
  destruct (Z.leb_spec 0 e) as [_|]; [|lia].
  pose proof (Z.div_mod (n * 2 ^ e) d ltac:(lia)) as Hdm.
  pose proof (Z.mod_pos_bound (n * 2 ^ e) d Hd) as Hr.
  set (q := n * 2 ^ e / d) in *. set (r := (n * 2 ^ e) mod d) in *.
  destruct ((2 * r <? d) || ((2 * r =? d) && Z.even q)) eqn:Hround.
  - assert (2 * r <= d) as Hle.
    { apply orb_true_iff in Hround as [H|H]; [apply Z.ltb_lt in H; lia|].
      apply andb_true_iff in H as [H _]. apply Z.eqb_eq in H. lia. }
    lia.
  - apply orb_false_iff in Hround as [H _]. apply Z.ltb_ge in H. lia.
Qed.

Lemma gwei_hundredths (n : Z) :
  0 < n <= MAX_SAFE_INTEGER ->
  2 * Z.abs (toFixed2_int (ddiv_int n 1000000000) * 10000000 - n) <= 10000000.
Proof.
  unfold MAX_SAFE_INTEGER. intros Hn.
  destruct (ddiv_int_near n 1000000000 ltac:(lia) ltac:(lia)) as [Hscale Hnear].
  change (Z.log2 1000000000) with 29 in Hscale.
  assert (Z.log2 n < 53) as Hlog by (apply Z.log2_lt_pow2; lia).
  unfold toFixed2_int.
  set (x := ddiv_int n 1000000000) in *.
  set (e := scale x) in *. set (m := num x) in *.
  assert (29 <= e) as He by lia.
  specialize (Hnear ltac:(lia)).
  destruct (Z.leb_spec 0 e) as [_|]; [|lia].
  assert (2 ^ 29 <= 2 ^ e) as HE by (apply Z.pow_le_mono_r; lia).
  assert (2 ^ (e + 1) = 2 * 2 ^ e) as ->
      by (rewrite Z.pow_add_r by lia; change (2 ^ 1) with 2; lia).
  set (E := 2 ^ e) in *.
  pose proof (Z.div_mod (200 * m + E) (2 * E) ltac:(lia)) as Hdm.
  pose proof (Z.mod_pos_bound (200 * m + E) (2 * E) ltac:(lia)) as Hrho.
  set (k := (200 * m + E) / (2 * E)) in *.
  set (rho := (200 * m + E) mod (2 * E)) in *.
  set (t := k * 10000000 - n).
  assert (t * E = 10000000 * (E * k) - n * E) as HtE by (subst t; ring).
  assert (2 * E * k = 2 * (E * k)) as Hassoc by ring.
  change (2 ^ 29) with 536870912 in HE.
  destruct (Z.le_gt_cases t 5000000) as [Hup|Hup];
    [destruct (Z.le_gt_cases (- 5000000) t) as [Hlo|Hlo]|].
  - lia.
  - assert ((t + 5000001) * E <= 0) as Hmul
        by (apply Z.mul_nonpos_nonneg; lia).
    lia.
  - assert (0 <= (t - 5000001) * E) as Hmul
        by (apply Z.mul_nonneg_nonneg; lia).
    lia.
Qed.

(** X16: for every safe integer number of wei, [gwei] prints the digits of
    an integer number [k] of hundredths of a gwei with a point before the
    last two digits, and [k] hundredths differ from the amount by at most
    half a hundredth of a gwei (5,000,000 wei). *)
Theorem gwei_accuracy (n : Z) :
  safe_nat n ->
  exists k, gwei n = show_fixed2 k /\ 0 <= k /\
            2 * Z.abs (k * 10000000 - n) <= 10000000.
Proof.
  intros [H0 Hmax]. exists (toFixed2_int (ddiv_int n 1000000000)).
  split; [reflexivity|].
  destruct (Z.eq_dec n 0) as [->|Hne].
  { split; vm_compute; discriminate. }
  pose proof (gwei_hundredths n ltac:(lia)) as Hacc. split; [|exact Hacc]. lia.
Qed.

Lemma gwei_accuracy_witness :
  exists k, gwei 30123456789 = show_fixed2 k /\ 0 <= k /\
            2 * Z.abs (k * 10000000 - 30123456789) <= 10000000.
Proof. apply gwei_accuracy. unfold safe_nat, MAX_SAFE_INTEGER. lia. Defined.

(** The printed amounts of some fees; 0.125 gwei is printed as 0.13
    because [toFixed] takes the larger neighbour at a tie, and 0.015 gwei
    as 0.01 because the binary64 number nearest to 0.015 is below it. *)
Example gwei_examples :
  map gwei [0; 1000112; 125000000; 15000000; 30000000000; 12345678912]
  = ["0.00"; "0.00"; "0.13"; "0.01"; "30.00"; "12.35"]%string.
Proof. vm_compute. reflexivity. Qed.
